(** * Apostrophe: browser-call and data injection ([lib/push.js]) and
      template environments ([lib/templates.js])

    A shallow embedding of the two modules and the properties their
    specification states about them.

    - [JS]        : the JavaScript values and built-ins the modules call
                    ([JSON.stringify], string coercion, [substr],
                    [search], [charAt]).
    - [Push]      : [pushCall], [getCalls], [pushGlobalCallWhen],
                    [getGlobalCallsWhen], [_getCalls], [pushData],
                    [getData], [pushGlobalData], [getGlobalData],
                    [_getData].
    - [Imp]       : [pushCall], [getCalls], [getGlobalCallsWhen] and
                    [_getCalls] once more, on a heap of objects, for
                    what they do to the lists they are handed.
    - [Templates] : [partial], [getNunjucksEnv], [newNunjucksEnv].
    - [Filters]   : the [stripTags] filter of [newNunjucksEnv].
    - [Facade]    : [render]. *)

From Stdlib Require Import ZArith String Ascii List Lia DecimalString.
From stdpp Require Import gmap strings list fin_maps.

Open Scope string_scope.

(* ===================================================================== *)
(** * JavaScript values and built-ins                                     *)
(* ===================================================================== *)

Module JS.

(** Characters that cannot be written inside a string literal. *)
Definition dquote : ascii := "034"%char.
Definition backslash : ascii := "092"%char.
Definition newline : ascii := "010"%char.

(** The values that reach the two modules.  Strings are sequences of
    8-bit units (UTF-8 encoded text), numbers are the integers, which
    JavaScript prints in decimal; an object lists its own enumerable
    properties in enumeration order; a function is known by its source
    text, which is what string coercion yields. *)
#[local] Set Warnings "-register-all".
Inductive value : Type :=
  | VUndefined
  | VNull
  | VBool (b : bool)
  | VNum (n : Z)
  | VStr (s : string)
  | VArr (items : list value)
  | VObj (props : list (string * value))
  | VFun (source : string).

(** An induction principle for values that reaches the elements of an
    array and the property values of an object. *)
Section value_induction.
Variable P : value -> Prop.
Hypothesis Hundefined : P VUndefined.
Hypothesis Hnull : P VNull.
Hypothesis Hbool : forall b, P (VBool b).
Hypothesis Hnum : forall n, P (VNum n).
Hypothesis Hstr : forall s, P (VStr s).
Hypothesis Harr : forall items, Forall P items -> P (VArr items).
Hypothesis Hobj : forall props, Forall (fun p => P (snd p)) props -> P (VObj props).
Hypothesis Hfun : forall source, P (VFun source).

Fixpoint value_nested_ind (v : value) : P v :=
  match v with
  | VUndefined => Hundefined
  | VNull => Hnull
  | VBool b => Hbool b
  | VNum n => Hnum n
  | VStr s => Hstr s
  | VArr items =>
      Harr items
        ((fix go (l : list value) : Forall P l :=
            match l with
            | [] => List.Forall_nil P
            | x :: r => List.Forall_cons P x r (value_nested_ind x) (go r)
            end) items)
  | VObj props =>
      Hobj props
        ((fix go (l : list (string * value)) : Forall (fun p => P (snd p)) l :=
            match l with
            | [] => List.Forall_nil _
            | p :: r => List.Forall_cons _ p r (value_nested_ind (snd p)) (go r)
            end) props)
  | VFun source => Hfun source
  end.
End value_induction.

(** [Number::toString] on an integer. *)
Definition NumberToString (n : Z) : string :=
  NilZero.string_of_int (Z.to_int n).

Definition hex_digit (d : nat) : ascii :=
  nth d [ "0"; "1"; "2"; "3"; "4"; "5"; "6"; "7";
          "8"; "9"; "a"; "b"; "c"; "d"; "e"; "f" ]%char "0"%char.

(** One unit of a string inside [QuoteJSONString]: the quote, the
    backslash and the control characters are escaped, everything else
    is copied. *)
Definition escape_unit (c : ascii) : string :=
  let k := nat_of_ascii c in
  if (k =? 8)%nat then String backslash "b"
  else if (k =? 9)%nat then String backslash "t"
  else if (k =? 10)%nat then String backslash "n"
  else if (k =? 12)%nat then String backslash "f"
  else if (k =? 13)%nat then String backslash "r"
  else if (k =? 34)%nat then String backslash (String dquote EmptyString)
  else if (k =? 92)%nat then String backslash (String backslash EmptyString)
  else if (k <? 32)%nat then
    String backslash
      (String "u" (String "0" (String "0"
        (String (hex_digit (k / 16)) (String (hex_digit (k mod 16)) EmptyString)))))
  else String c EmptyString.

Fixpoint escape_units (s : string) : string :=
  match s with
  | EmptyString => EmptyString
  | String c r => escape_unit c ++ escape_units r
  end.

Definition QuoteJSONString (s : string) : string :=
  String dquote (escape_units s ++ String dquote EmptyString).

(** [SerializeJSONProperty] without indentation: [None] is the
    [undefined] result.  In an array an unserializable element prints as
    [null]; in an object an unserializable property is left out. *)
Fixpoint SerializeJSONProperty (v : value) : option string :=
  match v with
  | VUndefined => None
  | VNull => Some "null"
  | VBool true => Some "true"
  | VBool false => Some "false"
  | VNum n => Some (NumberToString n)
  | VStr s => Some (QuoteJSONString s)
  | VArr items =>
      Some ("[" ++
            String.concat ","
              (map (fun x => match SerializeJSONProperty x with
                             | Some s => s
                             | None => "null"
                             end) items)
            ++ "]")
  | VObj props =>
      Some ("{" ++
            String.concat ","
              (flat_map (fun p => match SerializeJSONProperty (snd p) with
                                  | Some s => [QuoteJSONString (fst p) ++ ":" ++ s]
                                  | None => []
                                  end) props)
            ++ "}")
  | VFun _ => None
  end.

(** [JSON.stringify(v)]: a string value, or [undefined]. *)
Definition JSON_stringify (v : value) : value :=
  match SerializeJSONProperty v with
  | Some s => VStr s
  | None => VUndefined
  end.

(** [ToString], as applied by [+] and [+=] to a right operand. *)
Fixpoint ToString (v : value) : string :=
  match v with
  | VUndefined => "undefined"
  | VNull => "null"
  | VBool true => "true"
  | VBool false => "false"
  | VNum n => NumberToString n
  | VStr s => s
  | VArr items =>
      String.concat ","
        (map (fun x => match x with
                       | VUndefined | VNull => EmptyString
                       | _ => ToString x
                       end) items)
  | VObj _ => "[object Object]"
  | VFun source => source
  end.

(** [a[i]] on an array: [undefined] out of range. *)
Definition index (a : list value) (i : nat) : value := nth i a VUndefined.

(** [s.length]. *)
Definition strlen (s : string) : Z := Z.of_nat (String.length s).

(** [s.substr(start, len)]; [len = None] is the one-argument call.  A
    negative start counts from the end of the string. *)
Definition substr (s : string) (start : Z) (len : option Z) : string :=
  let size := strlen s in
  let start := if (start <? 0)%Z then Z.max (size + start) 0 else start in
  let len := match len with Some l => l | None => size end in
  let len := Z.min (Z.max len 0) (size - start) in
  if (len <=? 0)%Z then EmptyString
  else substring (Z.to_nat start) (Z.to_nat len) s.

(** [s.charAt(i)]: a string of one unit, empty out of range. *)
Definition charAt (s : string) (i : Z) : string :=
  if (i <? 0)%Z then EmptyString
  else match String.get (Z.to_nat i) s with
       | Some c => String c EmptyString
       | None => EmptyString
       end.

(** The character class [[\?\@]]. *)
Definition is_placeholder (c : ascii) : bool :=
  Ascii.eqb c "?" || Ascii.eqb c "@".

(** [s.search(/[\?\@]/)]: the index of the first match, [-1] without one. *)
Fixpoint search (s : string) : Z :=
  match s with
  | EmptyString => (-1)%Z
  | String c r =>
      if is_placeholder c then 0%Z
      else let k := search r in
           if (k =? -1)%Z then (-1)%Z else (k + 1)%Z
  end.

(** How a call ends: it returns a value, it throws, or, for a loop run
    with fuel, it is cut short. *)
Inductive outcome (A : Type) : Type :=
  | Returns (a : A)
  | Throws (error : string)
  | Unfinished.

Arguments Returns {A} a.
Arguments Throws {A} error.
Arguments Unfinished {A}.

Definition of_option {A : Type} (x : option A) : outcome A :=
  match x with Some a => Returns a | None => Unfinished end.

(** What an object created by [{}] inherits.  Every member of
    [Object.prototype] is truthy: a built-in function, which has a
    [length] and no [push], or, under [__proto__], the prototype object
    itself, which has neither a [length] nor an enumerable property. *)
Inductive member : Type :=
  | MFunction (length : nat)
  | MObject.

Definition Object_prototype (key : string) : option member :=
  if String.eqb key "constructor" then Some (MFunction 1)
  else if String.eqb key "toString" then Some (MFunction 0)
  else if String.eqb key "toLocaleString" then Some (MFunction 0)
  else if String.eqb key "valueOf" then Some (MFunction 0)
  else if String.eqb key "hasOwnProperty" then Some (MFunction 1)
  else if String.eqb key "isPrototypeOf" then Some (MFunction 1)
  else if String.eqb key "propertyIsEnumerable" then Some (MFunction 1)
  else if String.eqb key "__defineGetter__" then Some (MFunction 2)
  else if String.eqb key "__defineSetter__" then Some (MFunction 2)
  else if String.eqb key "__lookupGetter__" then Some (MFunction 1)
  else if String.eqb key "__lookupSetter__" then Some (MFunction 1)
  else if String.eqb key "__proto__" then Some MObject
  else None.

End JS.

(* ===================================================================== *)
(** * lib/push.js                                                         *)
(* ===================================================================== *)

Module Push.
Import JS.

(** One entry of [req._aposCalls] or [self._globalCalls[when]]. *)
Record call : Type := Call { pattern : string; arguments : list value }.

(** The part of a request object the module reads and writes; [None] is a
    property that was never assigned. *)
Record request : Type := Request {
  _aposCalls : option (list call);
  _aposData : option (list value)
}.

(** The part of [self] the module owns.  [_globalCalls] is created by
    [{}]: the map holds its own properties, and a key that is not among
    them is looked up in [Object.prototype]. *)
Record apos : Type := Apos {
  _globalCalls : gmap string (list call);
  _globalData : list value
}.

(** [x || []] on a property holding an array or nothing. *)
Definition or_empty {A} (x : option (list A)) : list A :=
  match x with Some l => l | None => [] end.

(** [req.pushCall(pattern, ...args)]. *)
Definition pushCall (pat : string) (args : list value) (req : request) : request :=
  let calls := match _aposCalls req with Some l => l | None => [] end in
  {| _aposCalls := Some (calls ++ [ {| pattern := pat; arguments := args |} ])%list;
     _aposData := _aposData req |}.

(** [self.pushGlobalCallWhen(when, pattern, ...args)].  When
    [self._globalCalls[when]] is an inherited member, it is truthy, so no
    list is created, and it has no [push]: the call throws and nothing is
    changed. *)
Definition pushGlobalCallWhen (when pat : string) (args : list value) (self : apos)
    : outcome unit * apos :=
  match _globalCalls self !! when with
  | Some calls =>
      (Returns tt,
       {| _globalCalls :=
            <[ when := (calls ++ [ {| pattern := pat; arguments := args |} ])%list ]>
              (_globalCalls self);
          _globalData := _globalData self |})
  | None =>
      match Object_prototype when with
      | Some _ => (Throws "TypeError", self)
      | None =>
          (Returns tt,
           {| _globalCalls :=
                <[ when := ([] ++ [ {| pattern := pat; arguments := args |} ])%list ]>
                  (_globalCalls self);
              _globalData := _globalData self |})
      end
  end.

(** The variables of the [while (true)] loop of [_getCalls]. *)
Record scan : Type := Scan { code : string; n : nat; from : Z }.

(** The loop, one iteration per unit of fuel: [Some] is the value of
    [code] at [break], [None] is fuel exhausted. *)
Fixpoint scan_loop (fuel : nat) (c : call) (st : scan) : option string :=
  match fuel with
  | O => None
  | S fuel =>
      let qat := search (substr (pattern c) (from st) None) in
      if negb (qat =? -1)%Z then
        let qat := (qat + from st)%Z in
        let code := code st ++ substr (pattern c) (from st) (Some (qat - from st)%Z) in
        let code :=
          if String.eqb (charAt (pattern c) qat) "?"
          then code ++ ToString (JSON_stringify (index (arguments c) (n st)))
          else code ++ ToString (index (arguments c) (n st)) in
        scan_loop fuel c {| code := code; n := S (n st); from := (qat + 1)%Z |}
      else Some (code st ++ substr (pattern c) (from st) None)
  end.

(** The function mapped over [calls]: the loop runs at most once per
    character of the pattern, and once more to reach [break]. *)
Definition compile_call (c : call) : option string :=
  code ← scan_loop (S (String.length (pattern c))) c
           {| code := "  "; n := 0; from := 0 |};
  Some (code ++ ";").

Definition nl : string := String newline EmptyString.

(** [self._getCalls(calls)]. *)
Definition _getCalls (calls : list call) : option string :=
  lines ← mapM compile_call calls;
  Some (String.concat nl lines).

(** [self.getCalls(req)]. *)
Definition getCalls (req : request) : option string :=
  _getCalls (or_empty (_aposCalls req)).

(** [self._getCalls(calls)] when [calls] is an inherited member instead
    of an array.  [_.map] goes through an object that has a numeric
    [length] by index, and the function mapped reads [call.pattern] of
    the [undefined] it finds at index 0; an object without [length] is
    gone through by its own enumerable properties, of which there are
    none. *)
Definition _getCalls_member (m : member) : outcome string :=
  match m with
  | MFunction (S _) => Throws "TypeError"
  | MFunction O => Returns EmptyString
  | MObject => Returns EmptyString
  end.

(** [self.getGlobalCallsWhen(when)]. *)
Definition getGlobalCallsWhen (self : apos) (when : string) : outcome string :=
  let s :=
    match _globalCalls self !! when with
    | Some calls => of_option (_getCalls calls)
    | None =>
        match Object_prototype when with
        | Some m => _getCalls_member m
        | None => of_option (_getCalls [])
        end
    end in
  s.

(** [req.pushData(datum)]. *)
Definition pushData (datum : value) (req : request) : request :=
  let data := match _aposData req with Some l => l | None => [] end in
  {| _aposCalls := _aposCalls req; _aposData := Some (data ++ [datum])%list |}.

(** [self.pushGlobalData(datum)]. *)
Definition pushGlobalData (datum : value) (self : apos) : apos :=
  {| _globalCalls := _globalCalls self; _globalData := (_globalData self ++ [datum])%list |}.

(** [self._getData(data)]. *)
Definition _getData (data : list value) : string :=
  let code := "  apos.data = apos.data || {};" ++ nl in
  code ++
  String.concat nl
    (map (fun datum =>
            "  $.extend(true, apos.data, " ++ ToString (JSON_stringify datum) ++ ");")
         data).

(** [self.getData(req)]. *)
Definition getData (req : request) : string :=
  _getData (or_empty (_aposData req)).

(** [self.getGlobalData()]. *)
Definition getGlobalData (self : apos) : string :=
  _getData (_globalData self).

(** The module body: the two calls pushed when the module is loaded. *)
Definition init : apos :=
  snd (pushGlobalCallWhen "always" "apos.enablePlayers()" []
         (snd (pushGlobalCallWhen "user" "apos.enableAreas()" []
                 {| _globalCalls := ∅; _globalData := [] |}))).

End Push.

(* ===================================================================== *)
(** * lib/push.js on a heap of objects                                    *)
(* ===================================================================== *)

(** The flush functions once more, for what they do to the objects they
    are handed.  A request, the lists of calls and [self._globalCalls]
    are objects in a heap; a property that holds a list holds a reference
    to it; [push] changes the list in place, [[]] and [_.map] make a new
    object.  A call runs in the heap and hands it back with its outcome. *)

Module Imp.
Import JS Push.

Inductive object : Type :=
  | OCalls (items : list call)
  | OLines (items : list string)
  | ORequest (_aposCalls : option nat)
  | OGlobalCalls (own : gmap string nat).

Definition M (A : Type) : Type := list object -> outcome A * list object.

Definition ret {A : Type} (a : A) : M A := fun h => (Returns a, h).

Definition throw {A : Type} (error : string) : M A := fun h => (Throws error, h).

Definition lift {A : Type} (x : outcome A) : M A := fun h => (x, h).

Definition bind {A B : Type} (m : M A) (k : A -> M B) : M B :=
  fun h =>
    match m h with
    | (Returns a, h) => k a h
    | (Throws error, h) => (Throws error, h)
    | (Unfinished, h) => (Unfinished, h)
    end.

#[local] Notation "'let*' x ':=' m 'in' k" := (bind m (fun x => k))
  (at level 10, x name, m at level 100, k at level 200).

(** A new object, at the end of the heap. *)
Definition alloc (o : object) : M nat :=
  fun h => (Returns (List.length h), (h ++ [o])%list).

(** The object a reference points at. *)
Definition load (l : nat) : M object :=
  fun h =>
    match h !! l with
    | Some o => (Returns o, h)
    | None => (Throws "ReferenceError", h)
    end.

(** The object a reference points at, changed in place. *)
Definition store (l : nat) (o : object) : M unit :=
  fun h => (Returns tt, <[ l := o ]> h).

(** [req.pushCall(pattern, ...args)]. *)
Definition pushCall (req : nat) (pat : string) (args : list value) : M unit :=
  let* o := load req in
  match o with
  | ORequest calls =>
      let* a := match calls with
           | Some a => ret a
           | None =>
               let* a := alloc (OCalls []) in
               let* stored := store req (ORequest (Some a)) in
               ret a
           end in
      let* arr := load a in
      match arr with
      | OCalls items =>
          store a (OCalls (items ++ [ {| pattern := pat; arguments := args |} ]))
      | _ => throw "TypeError"
      end
  | _ => throw "TypeError"
  end.

(** [self._getCalls(calls)]: [_.map] reads the list and makes a list of
    lines, which [join] reads. *)
Definition _getCalls (calls : nat) : M string :=
  let* arr := load calls in
  match arr with
  | OCalls items =>
      let* ls := lift (of_option (mapM compile_call items)) in
      let* r := alloc (OLines ls) in
      let* mapped := load r in
      match mapped with
      | OLines ls => ret (String.concat nl ls)
      | _ => throw "TypeError"
      end
  | _ => throw "TypeError"
  end.

(** [self.getCalls(req)]. *)
Definition getCalls (req : nat) : M string :=
  let* o := load req in
  match o with
  | ORequest calls =>
      let* a := match calls with
           | Some a => ret a
           | None => alloc (OCalls [])
           end in
      _getCalls a
  | _ => throw "TypeError"
  end.

(** [self.getGlobalCallsWhen(when)], with [self._globalCalls] at
    [globals]. *)
Definition getGlobalCallsWhen (globals : nat) (when : string) : M string :=
  let* o := load globals in
  match o with
  | OGlobalCalls own =>
      match own !! when with
      | Some a => _getCalls a
      | None =>
          match Object_prototype when with
          | Some m => lift (_getCalls_member m)
          | None => let* a := alloc (OCalls []) in _getCalls a
          end
      end
  | _ => throw "TypeError"
  end.

(** The heap holds a request whose [_aposCalls] is as given. *)
Definition holds_request (h : list object) (req : nat) (calls : option (list call)) : Prop :=
  match calls with
  | None => h !! req = Some (ORequest None)
  | Some l => exists a, h !! req = Some (ORequest (Some a)) /\ h !! a = Some (OCalls l)
  end.

(** The heap holds a [_globalCalls] whose own properties are as given. *)
Definition holds_globals (h : list object) (globals : nat)
    (calls : gmap string (list call)) : Prop :=
  exists own,
    h !! globals = Some (OGlobalCalls own) /\
    forall k, match own !! k with
              | Some a => exists l, calls !! k = Some l /\ h !! a = Some (OCalls l)
              | None => calls !! k = None
              end.

End Imp.

(* ===================================================================== *)
(** * lib/templates.js                                                    *)
(* ===================================================================== *)

Module Templates.

(** The [dirs] argument: left out, a single directory, an array of
    directories, or any other value; an object or a function that is not
    an array is known by the text string coercion gives it. *)
Inductive dirs_arg : Type :=
  | DirsUndefined
  | DirsString (d : string)
  | DirsArray (l : list string)
  | DirsNull
  | DirsBoolean (b : bool)
  | DirsNumber (n : Z)
  | DirsNaN
  | DirsObject (text : string).

(** [!dirs]: [undefined], [null], [false], [0], [NaN] and the empty
    string are falsy; an array (even empty) and any other object are
    not. *)
Definition falsy (dirs : dirs_arg) : bool :=
  match dirs with
  | DirsUndefined => true
  | DirsString d => String.eqb d EmptyString
  | DirsArray _ => false
  | DirsNull => true
  | DirsBoolean b => negb b
  | DirsNumber n => (n =? 0)%Z
  | DirsNaN => true
  | DirsObject _ => false
  end.

(** The text of a single directory, as [join] prints the element of
    [[dirs]]: [null] and [undefined] print as nothing. *)
Definition dir_text (dirs : dirs_arg) : string :=
  match dirs with
  | DirsUndefined => EmptyString
  | DirsString d => d
  | DirsArray l => String.concat "," l
  | DirsNull => EmptyString
  | DirsBoolean true => "true"
  | DirsBoolean false => "false"
  | DirsNumber n => JS.NumberToString n
  | DirsNaN => "NaN"
  | DirsObject text => text
  end.

(** A nunjucks environment: the search path of its loader and the names
    of the filters added to it, latest first. *)
Record Environment : Type := Env {
  searchPaths : list string;
  filters : list string
}.

Definition addFilter (name : string) (e : Environment) : Environment :=
  {| searchPaths := searchPaths e; filters := name :: filters e |}.

(** What a property of a data object holds: [undefined] or a value. *)
Inductive slot (V : Type) : Type :=
  | SUndefined
  | SValue (v : V).

Arguments SUndefined {V}.
Arguments SValue {V} v.

(** Environments are objects: [heap] holds the ones created so far, and a
    reference is a position in it.  [nunjucksEnvs] is the closure variable
    of that name, from key to reference. *)
Record store : Type := Store {
  heap : list Environment;
  nunjucksEnvs : gmap string nat
}.

Definition empty_store : store := {| heap := []; nunjucksEnvs := ∅ |}.

Section module_exports.

(** [__dirname + '/../views']. *)
Variable views : string.
(** [self.options.partialPaths]. *)
Variable partialPaths : option (list string).

(** [self.newNunjucksEnv(dirs)]: a new object, with its ten filters. *)
Definition newNunjucksEnv (dirs : list string) (st : store) : nat * store :=
  let nunjucksEnv := {| searchPaths := dirs; filters := [] |} in
  let nunjucksEnv := addFilter "date" nunjucksEnv in
  let nunjucksEnv := addFilter "query" nunjucksEnv in
  let nunjucksEnv := addFilter "json" nunjucksEnv in
  let nunjucksEnv := addFilter "qs" nunjucksEnv in
  let nunjucksEnv := addFilter "build" nunjucksEnv in
  let nunjucksEnv := addFilter "stripTags" nunjucksEnv in
  let nunjucksEnv := addFilter "nlbr" nunjucksEnv in
  let nunjucksEnv := addFilter "css" nunjucksEnv in
  let nunjucksEnv := addFilter "truncate" nunjucksEnv in
  let nunjucksEnv := addFilter "jsonAttribute" nunjucksEnv in
  (List.length (heap st),
   {| heap := (heap st ++ [nunjucksEnv])%list; nunjucksEnvs := nunjucksEnvs st |}).

(** [self.getNunjucksEnv(dirs)]. *)
Definition getNunjucksEnv (dirs : dirs_arg) (st : store) : nat * store :=
  let dirs := if falsy dirs then DirsArray [] else dirs in
  let dirs :=
    match dirs with
    | DirsArray l => l
    | _ => [dir_text dirs]
    end in
  let dirs := (dirs ++ match partialPaths with Some l => l | None => [] end)%list in
  let dirs := (dirs ++ [views])%list in
  let dirsKey := String.concat ":" dirs in
  match nunjucksEnvs st !! dirsKey with
  | None =>
      let '(e, st) := newNunjucksEnv dirs st in
      (e, {| heap := heap st; nunjucksEnvs := <[ dirsKey := e ]> (nunjucksEnvs st) |})
  | Some e => (e, st)
  end.

(** The values a data object holds. *)
Variable V : Type.
(** The function [self.partial], as a value. *)
Variable self_partial : V.
(** [self._aposLocals]. *)
Variable _aposLocals : gmap string (slot V).
(** [env.getTemplate(name).render(data)] of nunjucks: it returns the
    text or throws (a missing template, an error in a filter), and the
    template may call [partial] again, so it runs in the store and hands
    it back. *)
Variable nunjucks :
  Environment -> string -> gmap string (slot V) -> store -> JS.outcome string * store.

(** [obj[prop] === undefined], which is also what
    [typeof(obj[prop]) === 'undefined'] tests: an own property that holds
    [undefined], or a name that is neither an own property nor
    inherited. *)
Definition is_undefined (obj : gmap string (slot V)) (prop : string) : bool :=
  match obj !! prop with
  | Some (SValue _) => false
  | Some SUndefined => true
  | None =>
      match JS.Object_prototype prop with
      | Some _ => false
      | None => true
      end
  end.

(** [_.defaults(obj, source)] of the underscore library:
    [for (prop in source) if (obj[prop] === void 0) obj[prop] = source[prop]]. *)
Definition _defaults (obj source : gmap string (slot V)) : gmap string (slot V) :=
  filter (fun kv => is_undefined obj (fst kv) = true) source ∪ obj.

(** [self.partial(name, data, dirs)]: what the rendering returns or
    throws, the data object as it is handed to the template, and the
    store.  [data] is an object or, as [None], left out or falsy.  A
    reference that points at no object has no [getTemplate]. *)
Definition partial (name : string) (data : option (gmap string (slot V))) (dirs : dirs_arg)
    (st : store) : JS.outcome string * gmap string (slot V) * store :=
  let data := match data with Some d => d | None => ∅ end in
  let data :=
    if is_undefined data "partial"
    then <[ "partial" := SValue self_partial ]> data
    else data in
  let data := _defaults data _aposLocals in
  let '(e, st) := getNunjucksEnv dirs st in
  match heap st !! e with
  | Some env =>
      let '(text, st) := nunjucks env (name ++ ".html") data st in
      (text, data, st)
  | None => (JS.Throws "TypeError", data, st)
  end.

End module_exports.

End Templates.

(* ===================================================================== *)
(** * What the specification says, in its own words                       *)
(* ===================================================================== *)

Module Spec.
Import JS Push.

(** The text a placeholder stands for: the JSON serialization of the
    argument for [?], its unquoted textual value for [@]. *)
Definition json_text (a : value) : string := ToString (JSON_stringify a).

Definition placeholder_text (c : ascii) (a : value) : string :=
  if Ascii.eqb c "?" then json_text a else ToString a.

(** The number of placeholders of a pattern. *)
Fixpoint placeholders (pat : string) : nat :=
  match pat with
  | EmptyString => 0
  | String c rest => (if is_placeholder c then 1 else 0) + placeholders rest
  end.

(** A registration is well formed when it has one argument per
    placeholder. *)
Definition well_formed (c : call) : Prop :=
  placeholders (pattern c) = List.length (arguments c).

(** The scan of section 4.1, one character at a time: each placeholder
    takes the next argument, whatever its kind, and every other character
    is copied.  It fails on a placeholder that has no argument left. *)
Fixpoint substitute (pat : string) (args : list value) : option string :=
  match pat with
  | EmptyString => Some EmptyString
  | String c rest =>
      if is_placeholder c then
        match args with
        | a :: args => s ← substitute rest args; Some (placeholder_text c a ++ s)
        | [] => None
        end
      else s ← substitute rest args; Some (String c s)
  end.

(** One compiled line: two spaces, the substituted pattern, a semicolon. *)
Definition compiled_line (c : call) : option string :=
  s ← substitute (pattern c) (arguments c); Some ("  " ++ s ++ ";").

(** The same scan when the counts need not match: a placeholder without
    an argument yields the text [undefined]. *)
Fixpoint expand (pat : string) (args : list value) : string :=
  match pat with
  | EmptyString => EmptyString
  | String c rest =>
      if is_placeholder c then
        match args with
        | a :: args => placeholder_text c a ++ expand rest args
        | [] => "undefined" ++ expand rest []
        end
      else String c (expand rest args)
  end.

(** A pattern with [undefined] written in place of every placeholder. *)
Fixpoint undefined_fill (pat : string) : string :=
  match pat with
  | EmptyString => EmptyString
  | String c rest =>
      if is_placeholder c then "undefined" ++ undefined_fill rest
      else String c (undefined_fill rest)
  end.

(** Registering a list of calls, first to last, on a request and under
    an activation key. *)
Definition register_calls (calls : list call) (req : request) : request :=
  fold_left (fun r c => pushCall (pattern c) (arguments c) r) calls req.

Definition register_global_calls (when : string) (calls : list call) (self : apos) : apos :=
  fold_left (fun a c => snd (pushGlobalCallWhen when (pattern c) (arguments c) a)) calls self.

(** The lines of a text: a newline ends a line. *)
Fixpoint lines (s : string) : list string :=
  match s with
  | EmptyString => []
  | String c r =>
      if Ascii.eqb c newline then EmptyString :: lines r
      else match lines r with
           | [] => [String c EmptyString]
           | l :: ls => String c l :: ls
           end
  end.

(** No newline occurs in the text. *)
Fixpoint one_line (s : string) : bool :=
  match s with
  | EmptyString => true
  | String c r => negb (Ascii.eqb c newline) && one_line r
  end.

(** The namespace guard and the deep-merge line of section 4.3. *)
Definition namespace_guard : string := "  apos.data = apos.data || {};".

Definition merge_line (datum : value) : string :=
  "  $.extend(true, apos.data, " ++ json_text datum ++ ");".

(** No colon occurs in a directory name. *)
Fixpoint colon_free (s : string) : bool :=
  match s with
  | EmptyString => true
  | String c r => negb (Ascii.eqb c ":") && colon_free r
  end.

(** The registration of section 8. *)
Definition widget : call :=
  {| pattern := "new @(?)";
     arguments := [VStr "Widget"; VObj [("x", VNum 1)]] |}.

Definition widget_line : string :=
  "  new Widget({" ++ String dquote "x" ++ String dquote ":1});".

(** ** Template environments *)

Import Templates.

(** The normalization the specification describes: nothing for a missing
    argument, a single directory wrapped, an array as it is. *)
Definition wrapped_dirs (dirs : dirs_arg) : list string :=
  match dirs with
  | DirsUndefined => []
  | DirsArray l => l
  | _ => [dir_text dirs]
  end.

(** The normalization with every falsy value counted as missing:
    [undefined], [null], [false], [0], [NaN] and the empty string give
    the empty list, an array is taken as it is, and any other value is
    wrapped. *)
Definition normalized_dirs (dirs : dirs_arg) : list string :=
  match dirs with
  | DirsUndefined | DirsNull | DirsNaN => []
  | DirsBoolean b => if b then [dir_text dirs] else []
  | DirsNumber n => if (n =? 0)%Z then [] else [dir_text dirs]
  | DirsString d => if String.eqb d EmptyString then [] else [d]
  | DirsArray l => l
  | DirsObject _ => [dir_text dirs]
  end.

(** The directories searched, in order: the normalized argument, the
    configured partial paths, the views directory of the module. *)
Definition search_path (views : string) (partialPaths : option (list string))
    (dirs : dirs_arg) : list string :=
  (normalized_dirs dirs ++ or_empty partialPaths ++ [views])%list.

(** The cache key: the colon-join of the directories searched. *)
Definition cache_key (views : string) (partialPaths : option (list string))
    (dirs : dirs_arg) : string :=
  String.concat ":" (search_path views partialPaths dirs).

(** The environment created for a list of directories. *)
Definition fresh_environment (path : list string) : Environment :=
  {| searchPaths := path;
     filters := [ "jsonAttribute"; "truncate"; "css"; "nlbr"; "stripTags";
                  "build"; "qs"; "json"; "query"; "date" ] |}.

(** A store as the module keeps it: every cached reference points at an
    object, and no object is cached under two keys. *)
Definition store_ok (st : store) : Prop :=
  (forall k e, nunjucksEnvs st !! k = Some e -> (e < List.length (heap st))%nat)
  /\ (forall k1 k2 e, nunjucksEnvs st !! k1 = Some e ->
                      nunjucksEnvs st !! k2 = Some e -> k1 = k2).

End Spec.

(* ===================================================================== *)
(** * The rest of the two modules                                         *)
(* ===================================================================== *)

(** ** The [stripTags] filter of [newNunjucksEnv] *)

Module Filters.

(** [data.replace(/(<([^>]+)>)/ig, "")]: at each position, a match is a
    [<], at least one character other than [>] and the next [>]; a match
    is dropped and the scan goes on after it, any other character is
    copied and the scan goes on with the next one.  [close] looks for the
    [>] that ends a match; without one there is no match here. *)
Fixpoint stripTags (data : string) : string :=
  match data with
  | EmptyString => EmptyString
  | String c r =>
      let keep := String c (stripTags r) in
      if Ascii.eqb c "<" then
        match r with
        | EmptyString => keep
        | String d r' =>
            if Ascii.eqb d ">" then keep
            else (fix close (t : string) : string :=
                    match t with
                    | EmptyString => keep
                    | String e t' => if Ascii.eqb e ">" then stripTags t' else close t'
                    end) r'
        end
      else keep
  end.

(** The text after the first [>], if there is one. *)
Fixpoint after_gt (t : string) : option string :=
  match t with
  | EmptyString => None
  | String e t' => if Ascii.eqb e ">" then Some t' else after_gt t'
  end.

(** The text after a match of [<[^>]+>] at the head of a string. *)
Definition tag_at_head (s : string) : option string :=
  match s with
  | String c (String d r') =>
      if Ascii.eqb c "<" && negb (Ascii.eqb d ">") then after_gt r' else None
  | _ => None
  end.

(** [/<[^>]+>/.test(s)]: a match somewhere in the string. *)
Fixpoint has_tag (s : string) : bool :=
  match s with
  | EmptyString => false
  | String c r =>
      match tag_at_head s with
      | Some _ => true
      | None => has_tag r
      end
  end.

(** A given character occurs in the string. *)
Fixpoint occurs (x : ascii) (s : string) : bool :=
  match s with
  | EmptyString => false
  | String c r => Ascii.eqb c x || occurs x r
  end.

End Filters.

(** ** [render] *)

Module Facade.
Import Templates.

Section module_exports.

Variable views : string.
Variable partialPaths : option (list string).
Variable V : Type.
Variable self_partial : V.
Variable _aposLocals : gmap string (slot V).
(** [env.getTemplate(name).render(data)] of nunjucks. *)
Variable nunjucks :
  Environment -> string -> gmap string (slot V) -> store -> JS.outcome string * store.

(** [self.render(res, template, info)]: [res] is the list of the bodies
    sent so far.  [partial] is called without directories; what it
    returns is sent, and what it throws is thrown before anything is
    sent. *)
Definition render (res : list string) (template : string)
    (info : option (gmap string (slot V))) (st : store)
    : JS.outcome (list string) * gmap string (slot V) * store :=
  let '(body, data, st) :=
    partial views partialPaths V self_partial _aposLocals nunjucks
      template info DirsUndefined st in
  (match body with
   | JS.Returns body => JS.Returns (res ++ [body])%list
   | JS.Throws error => JS.Throws error
   | JS.Unfinished => JS.Unfinished
   end, data, st).

End module_exports.

End Facade.

(** ** Sequences of operations, and what the cache holds *)

Module Runs.
Import JS Push Templates.

(** The line of a registration, whatever its counts. *)
Definition line_of (c : call) : string :=
  "  " ++ Spec.expand (pattern c) (arguments c) ++ ";".

(** The four registration operations, and a sequence of them run one
    after the other on a request and the module object; one that throws
    changes nothing, and the next one runs. *)
Inductive push : Type :=
  | PushCall (pat : string) (args : list value)
  | PushGlobalCallWhen (when pat : string) (args : list value)
  | PushData (datum : value)
  | PushGlobalData (datum : value).

Record world : Type := World { req : request; self : apos }.

Definition apply_push (p : push) (w : world) : world :=
  match p with
  | PushCall pat args => {| req := pushCall pat args (req w); self := self w |}
  | PushGlobalCallWhen when pat args =>
      {| req := req w; self := snd (pushGlobalCallWhen when pat args (self w)) |}
  | PushData datum => {| req := pushData datum (req w); self := self w |}
  | PushGlobalData datum => {| req := req w; self := pushGlobalData datum (self w) |}
  end.

Definition run (ps : list push) (w : world) : world :=
  fold_left (fun w p => apply_push p w) ps w.

(** What a sequence of pushes holds, in order, for each of the four
    lists. *)
Definition pushed_calls (ps : list push) : list call :=
  flat_map (fun p => match p with
                     | PushCall pat args => [ {| pattern := pat; arguments := args |} ]
                     | _ => []
                     end) ps.

Definition pushed_global_calls (when : string) (ps : list push) : list call :=
  flat_map (fun p => match p with
                     | PushGlobalCallWhen w pat args =>
                         if String.eqb w when
                         then [ {| pattern := pat; arguments := args |} ]
                         else []
                     | _ => []
                     end) ps.

Definition pushed_data (ps : list push) : list value :=
  flat_map (fun p => match p with PushData datum => [datum] | _ => [] end) ps.

Definition pushed_global_data (ps : list push) : list value :=
  flat_map (fun p => match p with PushGlobalData datum => [datum] | _ => [] end) ps.

(** Every cached reference points at an environment whose search path
    joins to the key it is cached under and ends with the views
    directory, and which has the ten filters, the last added first. *)
Definition cache_sound (views : string) (st : store) : Prop :=
  forall k e,
    nunjucksEnvs st !! k = Some e ->
    exists env,
      heap st !! e = Some env /\
      String.concat ":" (searchPaths env) = k /\
      last (searchPaths env) = Some views /\
      filters env = [ "jsonAttribute"; "truncate"; "css"; "nlbr"; "stripTags";
                      "build"; "qs"; "json"; "query"; "date" ].

(** The data object [partial] hands to the template, for the one it was
    given. *)
Definition augmented {V : Type} (self_partial : V) (locals : gmap string (slot V))
    (data : option (gmap string (slot V))) : gmap string (slot V) :=
  let data := match data with Some d => d | None => ∅ end in
  let data :=
    if is_undefined V data "partial"
    then <[ "partial" := SValue self_partial ]> data
    else data in
  _defaults V data locals.

(** A rendering that keeps a well-formed store well formed, and one that
    keeps what is cached; both hold of a template that reaches the store
    through [partial] only. *)
Definition keeps_well_formed {V : Type} (views : string)
    (nunjucks : Environment -> string -> gmap string (slot V) -> store
                -> outcome string * store) : Prop :=
  forall env name data st,
    Spec.store_ok st -> cache_sound views st ->
    Spec.store_ok (snd (nunjucks env name data st))
    /\ cache_sound views (snd (nunjucks env name data st)).

Definition keeps_the_cache {V : Type}
    (nunjucks : Environment -> string -> gmap string (slot V) -> store
                -> outcome string * store) : Prop :=
  forall env name data st,
    nunjucksEnvs st ⊆ nunjucksEnvs (snd (nunjucks env name data st)).

(** What [res.send] has sent after a [render] whose [partial] ended with
    [body]. *)
Definition sent (res : list string) (body : outcome string) : outcome (list string) :=
  match body with
  | Returns body => Returns (res ++ [body])%list
  | Throws error => Throws error
  | Unfinished => Unfinished
  end.

End Runs.

(* ===================================================================== *)
(** * Strings                                                             *)
(* ===================================================================== *)

#[local] Arguments String.append !s1 s2 : simpl nomatch.

Module StringFacts.
Import JS.

Lemma append_nil_r (s : string) : s ++ EmptyString = s.
Proof. induction s as [|c s IH]; simpl; [reflexivity | now rewrite IH]. Qed.

Lemma append_assoc (a b c : string) : (a ++ b) ++ c = a ++ (b ++ c).
Proof. induction a as [|x a IH]; simpl; [reflexivity | now rewrite IH]. Qed.

Lemma length_append (a b : string) :
  String.length (a ++ b) = (String.length a + String.length b)%nat.
Proof. induction a as [|x a IH]; simpl; [reflexivity | now rewrite IH]. Qed.

(** [substring] past a prefix, and of a whole prefix. *)
Lemma substring_skip (pre s : string) (k m : nat) :
  substring (String.length pre + k) m (pre ++ s) = substring k m s.
Proof. induction pre as [|x pre IH]; simpl; [reflexivity | exact IH]. Qed.

Lemma substring_prefix (a b : string) :
  substring 0 (String.length a) (a ++ b) = a.
Proof.
  induction a as [|x a IH]; simpl.
  - destruct b; reflexivity.
  - now rewrite IH.
Qed.

Lemma substring_all (s : string) : substring 0 (String.length s) s = s.
Proof.
  pose proof (substring_prefix s EmptyString) as H.
  now rewrite append_nil_r in H.
Qed.

Lemma get_skip (pre : string) (c : ascii) (s : string) :
  String.get (String.length pre) (pre ++ String c s) = Some c.
Proof. induction pre as [|x pre IH]; simpl; [reflexivity | exact IH]. Qed.

(** The rest of a string from the end of a prefix. *)
Lemma substr_rest (pre suf : string) :
  substr (pre ++ suf) (strlen pre) None = suf.
Proof.
  unfold substr, strlen. rewrite length_append.
  destruct (Z.ltb_spec (Z.of_nat (String.length pre)) 0) as [H|_]; [lia|].
  destruct (Z.leb_spec
              (Z.min (Z.max (Z.of_nat (String.length pre + String.length suf)) 0)
                     (Z.of_nat (String.length pre + String.length suf)
                      - Z.of_nat (String.length pre))) 0) as [H|H].
  - destruct suf; [reflexivity | simpl in H; lia].
  - replace (Z.to_nat (Z.of_nat (String.length pre)))
      with (String.length pre + 0)%nat by lia.
    rewrite substring_skip.
    replace (Z.to_nat _) with (String.length suf) by lia.
    apply substring_all.
Qed.

(** A piece of given length from the end of a prefix. *)
Lemma substr_piece (pre a b : string) :
  substr (pre ++ a ++ b) (strlen pre) (Some (strlen a)) = a.
Proof.
  unfold substr, strlen. rewrite !length_append.
  destruct (Z.ltb_spec (Z.of_nat (String.length pre)) 0) as [H|_]; [lia|].
  destruct (Z.leb_spec
              (Z.min (Z.max (Z.of_nat (String.length a)) 0)
                     (Z.of_nat (String.length pre + (String.length a + String.length b))
                      - Z.of_nat (String.length pre))) 0) as [H|H].
  - destruct a; [reflexivity | simpl in H; lia].
  - replace (Z.to_nat (Z.of_nat (String.length pre)))
      with (String.length pre + 0)%nat by lia.
    rewrite substring_skip.
    replace (Z.to_nat _) with (String.length a) by lia.
    apply substring_prefix.
Qed.

Lemma charAt_skip (pre : string) (c : ascii) (s : string) :
  charAt (pre ++ String c s) (strlen pre) = String c EmptyString.
Proof.
  unfold charAt, strlen.
  destruct (Z.ltb_spec (Z.of_nat (String.length pre)) 0) as [H|_]; [lia|].
  rewrite Nat2Z.id, get_skip. reflexivity.
Qed.

Lemma search_nonneg (s : string) : (-1 <= search s)%Z.
Proof.
  induction s as [|c s IH]; simpl; [lia|].
  destruct (is_placeholder c); [lia|].
  destruct (Z.eqb_spec (search s) (-1)); lia.
Qed.

(** What [search] finds: nothing in a string without placeholders, and
    otherwise the first placeholder, after a stretch without any. *)
Lemma search_none (s : string) :
  search s = (-1)%Z -> Spec.placeholders s = 0%nat.
Proof.
  induction s as [|c s IH]; simpl; [reflexivity|].
  destruct (is_placeholder c); [discriminate|].
  pose proof (search_nonneg s).
  destruct (Z.eqb_spec (search s) (-1)); [auto | intros; lia ].
Qed.

Lemma search_some (s : string) :
  search s <> (-1)%Z ->
  exists a c b, s = a ++ String c b /\ Spec.placeholders a = 0%nat /\
                is_placeholder c = true /\ search s = strlen a.
Proof.
  induction s as [|x s IH]; simpl; [congruence|].
  destruct (is_placeholder x) eqn:Hx.
  - intros _. exists EmptyString, x, s. auto.
  - destruct (Z.eqb_spec (search s) (-1)) as [E|E]; [congruence|].
    intros _. destruct (IH E) as (a & c & b & -> & Ha & Hc & Hs).
    exists (String x a), c, b. simpl. rewrite Hx, Ha, Hs.
    unfold strlen. simpl. repeat split; auto. lia.
Qed.

End StringFacts.

(* ===================================================================== *)
(** * The pattern compiler                                                *)
(* ===================================================================== *)

Module PushFacts.
Import JS Push Spec StringFacts.

Lemma placeholder_text_undefined (c : ascii) :
  placeholder_text c VUndefined = "undefined".
Proof. unfold placeholder_text. destruct (Ascii.eqb c "?"); reflexivity. Qed.

Lemma expand_plain (a rest : string) (args : list value) :
  placeholders a = 0%nat -> expand (a ++ rest) args = a ++ expand rest args.
Proof.
  induction a as [|x a IH]; simpl; [reflexivity|].
  destruct (is_placeholder x); [discriminate|].
  intros H. now rewrite IH.
Qed.

Lemma expand_plain_all (a : string) (args : list value) :
  placeholders a = 0%nat -> expand a args = a.
Proof.
  intros H. pose proof (expand_plain a EmptyString args H) as E.
  now rewrite !append_nil_r in E.
Qed.

Lemma placeholders_append (a b : string) :
  placeholders (a ++ b) = (placeholders a + placeholders b)%nat.
Proof. induction a as [|x a IH]; simpl; [reflexivity | rewrite IH; lia]. Qed.

Lemma placeholders_le_length (s : string) : (placeholders s <= String.length s)%nat.
Proof.
  induction s as [|x s IH]; simpl; [lia|]. destruct (is_placeholder x); lia.
Qed.

(** What a placeholder contributes, read off the argument array by
    position as the loop does. *)
Lemma expand_at (c : ascii) (b : string) (args : list value) (k : nat) :
  is_placeholder c = true ->
  expand (String c b) (skipn k args) =
  placeholder_text c (index args k) ++ expand b (skipn (S k) args).
Proof.
  intros Hc. simpl. rewrite Hc. unfold index.
  revert k. induction args as [|x args IH]; intros k.
  - rewrite !skipn_nil. destruct k; simpl; now rewrite placeholder_text_undefined.
  - destruct k; [reflexivity | apply IH].
Qed.

Lemma charAt_is_question (c : ascii) :
  String.eqb (String c EmptyString) "?" = Ascii.eqb c "?".
Proof. simpl. destruct (Ascii.eqb c "?"); reflexivity. Qed.

(** The loop invariant: with the cursor at the end of [pre], the loop
    appends to [code] the expansion of what is left of the pattern, taking
    arguments from position [n] on.  One unit of fuel per placeholder
    left, and one for the last turn, is enough. *)
Lemma scan_loop_expand (fuel : nat) :
  forall (pre suf : string) (args : list value) (st : scan),
    (placeholders suf < fuel)%nat ->
    from st = strlen pre ->
    scan_loop fuel {| pattern := pre ++ suf; arguments := args |} st
    = Some (code st ++ expand suf (skipn (n st) args)).
Proof.
  induction fuel as [|fuel IH]; intros pre suf args st Hfuel Hfrom; [lia|].
  cbn [scan_loop pattern arguments]. rewrite Hfrom, substr_rest.
  destruct (Z.eqb_spec (search suf) (-1)) as [E|E]; cbn [negb].
  - now rewrite (expand_plain_all suf _ (search_none suf E)).
  - destruct (search_some suf E) as (a & c & b & -> & Ha & Hc & Hs).
    rewrite Hs.
    replace (strlen a + strlen pre - strlen pre)%Z with (strlen a) by lia.
    rewrite substr_piece.
    replace (pre ++ a ++ String c b) with ((pre ++ a) ++ String c b)
      by apply append_assoc.
    replace (strlen a + strlen pre)%Z with (strlen (pre ++ a))
      by (unfold strlen; rewrite length_append; lia).
    rewrite charAt_skip, charAt_is_question.
    replace ((pre ++ a) ++ String c b)
      with (((pre ++ a) ++ String c EmptyString) ++ b)
      by (now rewrite (append_assoc (pre ++ a))).
    rewrite placeholders_append in Hfuel. simpl in Hfuel. rewrite Hc in Hfuel.
    rewrite expand_plain, expand_at by assumption.
    unfold placeholder_text.
    destruct (Ascii.eqb c "?");
      (rewrite IH;
       [ cbn [code n]; now rewrite !append_assoc
       | lia
       | cbn [from]; unfold strlen; rewrite !length_append; simpl; lia ]).
Qed.

(** [compile_call] always returns: the line is the expansion of the
    pattern between two spaces and a semicolon. *)
Lemma compile_call_expand (c : call) :
  compile_call c = Some ("  " ++ expand (pattern c) (arguments c) ++ ";").
Proof.
  destruct c as [pat args]. unfold compile_call. cbn [pattern arguments].
  pose proof (scan_loop_expand (S (String.length pat)) EmptyString pat args
                {| code := "  "; n := 0; from := 0 |}) as H.
  simpl (EmptyString ++ pat) in H. rewrite H.
  - cbn [mbind option_bind code n skipn]. now rewrite append_assoc.
  - pose proof (placeholders_le_length pat). lia.
  - reflexivity.
Qed.

Lemma mapM_total {A B : Type} (f : A -> B) (l : list A) :
  mapM (fun x => Some (f x)) l = Some (map f l).
Proof. induction l as [|x l IH]; simpl; [reflexivity | now rewrite IH]. Qed.

Lemma _getCalls_expand (calls : list call) :
  _getCalls calls =
  Some (String.concat nl
          (map (fun c => "  " ++ expand (pattern c) (arguments c) ++ ";") calls)).
Proof.
  unfold _getCalls.
  rewrite (mapM_ext compile_call
             (fun c => Some ("  " ++ expand (pattern c) (arguments c) ++ ";")))
    by apply compile_call_expand.
  now rewrite mapM_total.
Qed.

(** On a well-formed registration the strict scan succeeds, and agrees
    with the expansion. *)
Lemma substitute_expand (pat : string) :
  forall (args : list value) (s : string),
    substitute pat args = Some s -> expand pat args = s.
Proof.
  induction pat as [|c pat IH]; intros args s; simpl.
  - now intros [= <-].
  - destruct (is_placeholder c).
    + destruct args as [|a args]; [discriminate|].
      destruct (substitute pat args) as [t|] eqn:E; [|discriminate].
      intros [= <-]. now rewrite (IH _ _ E).
    + destruct (substitute pat args) as [t|] eqn:E; [|discriminate].
      intros [= <-]. now rewrite (IH _ _ E).
Qed.

Lemma substitute_enough (pat : string) :
  forall args : list value,
    (placeholders pat <= List.length args)%nat -> is_Some (substitute pat args).
Proof.
  induction pat as [|c pat IH]; intros args H; simpl in *; [eauto|].
  destruct (is_placeholder c).
  - destruct args as [|a args]; simpl in H; [lia|].
    destruct (IH args) as [t ->]; [lia | simpl; eauto].
  - destruct (IH args) as [t ->]; [lia | simpl; eauto].
Qed.

Lemma compiled_line_well_formed (c : call) :
  well_formed c -> exists l, compiled_line c = Some l /\ compile_call c = Some l.
Proof.
  intros H. unfold compiled_line.
  destruct (substitute_enough (pattern c) (arguments c)) as [s Hs];
    [unfold well_formed in H; lia|].
  rewrite Hs. eexists; split; [reflexivity|].
  now rewrite compile_call_expand, (substitute_expand _ _ _ Hs).
Qed.

Lemma flush_well_formed (calls : list call) :
  Forall well_formed calls ->
  exists ls, Forall2 (fun c l => compiled_line c = Some l) calls ls /\
             _getCalls calls = Some (String.concat nl ls).
Proof.
  intros H. unfold _getCalls.
  assert (exists ls, Forall2 (fun c l => compiled_line c = Some l) calls ls /\
                     mapM compile_call calls = Some ls) as (ls & H1 & H2).
  { induction H as [|c calls Hc _ IH].
    - exists []. split; [constructor | reflexivity].
    - destruct IH as (ls & H1 & H2).
      destruct (compiled_line_well_formed c Hc) as (l & Hl1 & Hl2).
      exists (l :: ls). split; [now constructor|].
      simpl. now rewrite Hl2, H2. }
  exists ls. split; [assumption|]. now rewrite H2.
Qed.

(** What the registration operations leave in the lists. *)
Lemma register_calls_list (calls : list call) :
  forall req, or_empty (_aposCalls (register_calls calls req))
              = (or_empty (_aposCalls req) ++ calls)%list.
Proof.
  unfold register_calls.
  induction calls as [|c calls IH]; intros req; simpl.
  - now rewrite app_nil_r.
  - rewrite IH. unfold pushCall. cbn [_aposCalls or_empty].
    destruct c as [pat args]. cbn [pattern arguments].
    rewrite <- app_assoc. reflexivity.
Qed.

(** A push under a key that is an own property, or that is not an
    inherited name, lands in the list of that key. *)
Lemma pushGlobalCallWhen_own (when pat : string) (args : list value) (self : apos) :
  Object_prototype when = None \/ is_Some (_globalCalls self !! when) ->
  pushGlobalCallWhen when pat args self
  = (Returns tt,
     {| _globalCalls :=
          <[ when := (or_empty (_globalCalls self !! when)
                      ++ [ {| pattern := pat; arguments := args |} ])%list ]>
            (_globalCalls self);
        _globalData := _globalData self |}).
Proof.
  intros H. unfold pushGlobalCallWhen.
  destruct (_globalCalls self !! when) as [l|] eqn:E; [reflexivity|].
  destruct H as [-> | [x Hx]]; [reflexivity | discriminate].
Qed.

Lemma register_global_calls_list (when : string) (calls : list call) :
  forall self,
    Object_prototype when = None \/ is_Some (_globalCalls self !! when) ->
    or_empty (_globalCalls (register_global_calls when calls self) !! when)
    = (or_empty (_globalCalls self !! when) ++ calls)%list.
Proof.
  unfold register_global_calls.
  induction calls as [|c calls IH]; intros self H; simpl.
  - now rewrite app_nil_r.
  - rewrite pushGlobalCallWhen_own by assumption. cbn [snd].
    rewrite IH.
    + cbn [_globalCalls]. rewrite lookup_insert_eq. cbn [or_empty].
      destruct c as [pat args]. cbn [pattern arguments].
      rewrite <- app_assoc. reflexivity.
    + right. cbn [_globalCalls]. rewrite lookup_insert_eq. eauto.
Qed.

End PushFacts.

(* ===================================================================== *)
(** * Properties of the call registry                                     *)
(* ===================================================================== *)

Module PushTheorems.
Import JS Push Spec StringFacts PushFacts.

(** C1.  Flushing a list of well-formed registrations yields the
    newline-join, in registration order, of one line per registration;
    each line is the left-to-right substitution of the arguments into the
    pattern (JSON for [?], the unquoted text for [@]) between two spaces
    and a semicolon.  This holds of [_getCalls], of [getCalls] on a
    request on which the calls were pushed, and of [getGlobalCallsWhen]
    on a key under which they were pushed (a key that is not the name of
    an inherited member, under which nothing can be pushed).  The
    registration
    [('new @(?)', 'Widget', {x:1})] compiles to the line
    [  new Widget({"x":1});]. *)
Theorem flush_substitutes_in_registration_order :
  (forall calls : list call,
      Forall well_formed calls ->
      exists ls, Forall2 (fun c l => compiled_line c = Some l) calls ls /\
                 _getCalls calls = Some (String.concat nl ls) /\
                 (forall data,
                     getCalls (register_calls calls
                                 {| _aposCalls := None; _aposData := data |})
                     = Some (String.concat nl ls)) /\
                 (forall self when,
                     Object_prototype when = None ->
                     _globalCalls self !! when = None ->
                     getGlobalCallsWhen (register_global_calls when calls self) when
                     = Returns (String.concat nl ls)))
  /\ compiled_line widget = Some widget_line
  /\ _getCalls [widget] = Some widget_line.
Proof.
  split; [|split].
  - intros calls H. destruct (flush_well_formed calls H) as (ls & H1 & H2).
    exists ls. repeat split; try assumption.
    + intros data. unfold getCalls. now rewrite register_calls_list.
    + intros self when Hp Hw.
      pose proof (register_global_calls_list when calls self (or_introl Hp)) as E.
      rewrite Hw in E. cbn [or_empty List.app] in E.
      unfold getGlobalCallsWhen.
      destruct (_globalCalls (register_global_calls when calls self) !! when)
        as [l|] eqn:El; cbn [or_empty] in E.
      * subst l. now rewrite H2.
      * subst calls. rewrite Hp. now rewrite H2.
  - reflexivity.
  - rewrite _getCalls_expand. reflexivity.
Qed.

Lemma flush_substitutes_in_registration_order_witness :
  Forall well_formed [widget; {| pattern := "go()"; arguments := [] |}] /\
  exists ls,
    Forall2 (fun c l => compiled_line c = Some l)
      [widget; {| pattern := "go()"; arguments := [] |}] ls /\
    _getCalls [widget; {| pattern := "go()"; arguments := [] |}]
    = Some (String.concat nl ls).
Proof.
  assert (Forall well_formed [widget; {| pattern := "go()"; arguments := [] |}]) as H
    by (repeat constructor).
  split; [exact H|].
  destruct (proj1 flush_substitutes_in_registration_order _ H) as (ls & H1 & H2 & _).
  exists ls. split; assumption.
Defined.




(** Arguments past the last placeholder are never read. *)
Lemma expand_firstn (pat : string) :
  forall args : list value,
    expand pat (firstn (placeholders pat) args) = expand pat args.
Proof.
  induction pat as [|c pat IH]; intros args; simpl; [reflexivity|].
  destruct (is_placeholder c); simpl.
  - destruct args as [|a args]; simpl; [reflexivity | now rewrite IH].
  - now rewrite IH.
Qed.

Lemma expand_nil (pat : string) : expand pat [] = undefined_fill pat.
Proof.
  induction pat as [|c pat IH]; simpl; [reflexivity|].
  destruct (is_placeholder c); now rewrite IH.
Qed.

(** Once the arguments are used up, the rest of the pattern is filled
    with [undefined]. *)
Lemma expand_exhausted (used rest : string) :
  forall args : list value,
    placeholders used = List.length args ->
    expand (used ++ rest) args = expand used args ++ undefined_fill rest.
Proof.
  induction used as [|c used IH]; intros args H; simpl in *.
  - destruct args; [apply expand_nil | discriminate].
  - destruct (is_placeholder c).
    + destruct args as [|a args]; [discriminate|].
      simpl in H. rewrite IH by lia. now rewrite append_assoc.
    + now rewrite IH by lia.
Qed.

(** A pattern with too many placeholders splits after the last one that
    has an argument. *)
Lemma split_at_last_argument (pat : string) :
  forall args : list value,
    (List.length args < placeholders pat)%nat ->
    exists used rest,
      pat = used ++ rest /\
      placeholders used = List.length args /\
      placeholders rest = (placeholders pat - List.length args)%nat.
Proof.
  induction pat as [|c pat IH]; intros args H; simpl in *; [lia|].
  destruct (is_placeholder c) eqn:Hc.
  - destruct args as [|a args].
    + exists EmptyString, (String c pat). simpl. rewrite Hc. auto.
    + destruct (IH args) as (used & rest & E & H1 & H2); [simpl in H; lia|].
      exists (String c used), rest. simpl. rewrite Hc.
      split; [now rewrite E|]. split; lia.
  - destruct (IH args) as (used & rest & E & H1 & H2); [lia|].
    exists (String c used), rest. simpl. rewrite Hc.
    split; [now rewrite E|]. split; lia.
Qed.

(** C4.  A count mismatch is not detected.  With fewer placeholders than
    arguments the output is the one obtained without the extra arguments.
    With more placeholders than arguments the pattern splits into a part
    that uses up the arguments and a rest, and the line is the line of the
    first part followed by the rest with the text [undefined] in place of
    each placeholder, whether [?] or [@].  In either case, and for every
    list of registrations, [_getCalls] returns a string. *)
Theorem count_mismatch_goes_undetected :
  (forall calls : list call,
      Forall (fun c => (placeholders (pattern c) < List.length (arguments c))%nat) calls ->
      _getCalls calls =
      _getCalls (map (fun c => {| pattern := pattern c;
                                  arguments := firstn (placeholders (pattern c))
                                                      (arguments c) |}) calls))
  /\ (forall (pat : string) (args : list value),
         (List.length args < placeholders pat)%nat ->
         exists used rest body,
           pat = used ++ rest /\
           placeholders used = List.length args /\
           placeholders rest = (placeholders pat - List.length args)%nat /\
           _getCalls [ {| pattern := used; arguments := args |} ]
           = Some ("  " ++ body ++ ";") /\
           _getCalls [ {| pattern := pat; arguments := args |} ]
           = Some ("  " ++ body ++ undefined_fill rest ++ ";"))
  /\ _getCalls [ {| pattern := "f(?, @)"; arguments := [] |} ]
     = Some "  f(undefined, undefined);"
  /\ (forall calls : list call, exists s, _getCalls calls = Some s).
Proof.
  split; [|split; [|split]].
  - intros calls _. rewrite !_getCalls_expand. do 2 f_equal.
    rewrite map_map. apply map_ext. intros c. cbn [pattern arguments].
    now rewrite expand_firstn.
  - intros pat args H.
    destruct (split_at_last_argument pat args H) as (used & rest & -> & H1 & H2).
    exists used, rest, (expand used args). repeat split; try assumption.
    + rewrite _getCalls_expand. reflexivity.
    + rewrite _getCalls_expand. cbn [map pattern arguments String.concat].
      now rewrite expand_exhausted, append_assoc.
  - rewrite _getCalls_expand. reflexivity.
  - intros calls. rewrite _getCalls_expand. eauto.
Qed.

Lemma count_mismatch_goes_undetected_witness :
  _getCalls [ {| pattern := "f(?)"; arguments := [VNum 1; VNum 2] |} ]
  = _getCalls [ {| pattern := "f(?)"; arguments := [VNum 1] |} ]
  /\ exists used rest body,
       "f(?, ?, @)" = used ++ rest /\
       placeholders rest = 2%nat /\
       _getCalls [ {| pattern := used; arguments := [VNum 1] |} ]
       = Some ("  " ++ body ++ ";") /\
       _getCalls [ {| pattern := "f(?, ?, @)"; arguments := [VNum 1] |} ]
       = Some ("  " ++ body ++ undefined_fill rest ++ ";").
Proof.
  split.
  - apply (proj1 count_mismatch_goes_undetected
             [ {| pattern := "f(?)"; arguments := [VNum 1; VNum 2] |} ]).
    repeat constructor.
  - destruct (proj1 (proj2 count_mismatch_goes_undetected) "f(?, ?, @)" [VNum 1])
      as (used & rest & body & H1 & _ & H3 & H4 & H5).
    + simpl. lia.
    + exists used, rest, body. repeat split; assumption.
Defined.

(** What the flush functions do to the heap. *)
Lemma Imp_getCalls_at (a : nat) (h : list Imp.object) :
  Imp._getCalls a h
  = match h !! a with
    | Some (Imp.OCalls items) =>
        match mapM compile_call items with
        | Some ls => (Returns (String.concat nl ls), (h ++ [Imp.OLines ls])%list)
        | None => (Unfinished, h)
        end
    | Some _ => (Throws "TypeError", h)
    | None => (Throws "ReferenceError", h)
    end.
Proof.
  unfold Imp._getCalls, Imp.bind, Imp.load, Imp.alloc, Imp.lift, Imp.ret, Imp.throw.
  destruct (h !! a) as [[items|?|?|?]|]; try reflexivity.
  destruct (mapM compile_call items) as [ls|]; cbn [of_option]; [|reflexivity].
  now rewrite list_lookup_middle.
Qed.

Lemma Imp_getCalls_grows (a : nat) (h : list Imp.object) :
  h `prefix_of` snd (Imp._getCalls a h).
Proof.
  rewrite Imp_getCalls_at.
  destruct (h !! a) as [[items|?|?|?]|]; cbn [snd]; try reflexivity.
  destruct (mapM compile_call items); cbn [snd]; [now apply prefix_app_r | reflexivity].
Qed.

(** A flush of a list that is in the heap returns the same in a heap
    that has grown. *)
Lemma Imp_getCalls_stable (a : nat) (h ext : list Imp.object) :
  is_Some (h !! a) ->
  fst (Imp._getCalls a (h ++ ext)%list) = fst (Imp._getCalls a h).
Proof.
  intros [o Ho]. rewrite !Imp_getCalls_at, (lookup_app_l_Some _ _ _ _ Ho), Ho.
  destruct o as [items|?|?|?]; try reflexivity.
  now destruct (mapM compile_call items).
Qed.

Lemma Imp_getCalls_fresh (h : list Imp.object) :
  Imp._getCalls (List.length h) (h ++ [Imp.OCalls []])%list
  = (Returns EmptyString, ((h ++ [Imp.OCalls []]) ++ [Imp.OLines []])%list).
Proof.
  rewrite Imp_getCalls_at, list_lookup_middle by reflexivity. reflexivity.
Qed.

Lemma Imp_getCalls_request (req : nat) (h : list Imp.object) :
  Imp.getCalls req h
  = match h !! req with
    | Some (Imp.ORequest (Some a)) => Imp._getCalls a h
    | Some (Imp.ORequest None) =>
        (Returns EmptyString, ((h ++ [Imp.OCalls []]) ++ [Imp.OLines []])%list)
    | Some _ => (Throws "TypeError", h)
    | None => (Throws "ReferenceError", h)
    end.
Proof.
  unfold Imp.getCalls, Imp.bind, Imp.load, Imp.alloc, Imp.ret, Imp.throw.
  destruct (h !! req) as [[?|?|[a|]|?]|]; try reflexivity.
  apply Imp_getCalls_fresh.
Qed.

Lemma Imp_getGlobalCallsWhen_at (globals : nat) (when : string) (h : list Imp.object) :
  Imp.getGlobalCallsWhen globals when h
  = match h !! globals with
    | Some (Imp.OGlobalCalls own) =>
        match own !! when with
        | Some a => Imp._getCalls a h
        | None =>
            match Object_prototype when with
            | Some m => (_getCalls_member m, h)
            | None =>
                (Returns EmptyString, ((h ++ [Imp.OCalls []]) ++ [Imp.OLines []])%list)
            end
        end
    | Some _ => (Throws "TypeError", h)
    | None => (Throws "ReferenceError", h)
    end.
Proof.
  unfold Imp.getGlobalCallsWhen, Imp.bind, Imp.load, Imp.alloc, Imp.lift, Imp.throw.
  destruct (h !! globals) as [[?|?|?|own]|]; try reflexivity.
  destruct (own !! when); [reflexivity|].
  destruct (Object_prototype when); [reflexivity|].
  apply Imp_getCalls_fresh.
Qed.

Lemma Imp_getCalls_frame (req : nat) (h : list Imp.object) :
  h `prefix_of` snd (Imp.getCalls req h)
  /\ fst (Imp.getCalls req (snd (Imp.getCalls req h))) = fst (Imp.getCalls req h).
Proof.
  rewrite (Imp_getCalls_request req h).
  destruct (h !! req) as [o|] eqn:E.
  - assert (forall ext, (h ++ ext)%list !! req = Some o) as Hext
        by (intros ext; now apply lookup_app_l_Some).
    destruct o as [?|?|[a|]|?]; cbn [fst snd].
    + split; [reflexivity|]. now rewrite Imp_getCalls_request, E.
    + split; [reflexivity|]. now rewrite Imp_getCalls_request, E.
    + split; [apply Imp_getCalls_grows|].
      destruct (Imp_getCalls_grows a h) as [ext Hh]. rewrite Hh at 1.
      rewrite Imp_getCalls_request, Hext.
      destruct (h !! a) as [x|] eqn:Ea.
      * apply Imp_getCalls_stable. eauto.
      * rewrite Imp_getCalls_at, Ea in Hh. cbn [snd] in Hh.
        apply (f_equal List.length) in Hh. rewrite length_app in Hh.
        destruct ext; [|simpl in Hh; lia]. now rewrite app_nil_r.
    + split.
      * rewrite <- app_assoc. now apply prefix_app_r.
      * rewrite Imp_getCalls_request, <- app_assoc, Hext. reflexivity.
    + split; [reflexivity|]. now rewrite Imp_getCalls_request, E.
  - cbn [fst snd]. split; [reflexivity|]. now rewrite Imp_getCalls_request, E.
Qed.

Lemma Imp_getGlobalCallsWhen_frame (globals : nat) (when : string) (h : list Imp.object) :
  h `prefix_of` snd (Imp.getGlobalCallsWhen globals when h)
  /\ fst (Imp.getGlobalCallsWhen globals when
            (snd (Imp.getGlobalCallsWhen globals when h)))
     = fst (Imp.getGlobalCallsWhen globals when h).
Proof.
  rewrite (Imp_getGlobalCallsWhen_at globals when h).
  destruct (h !! globals) as [o|] eqn:E.
  - assert (forall ext, (h ++ ext)%list !! globals = Some o) as Hext
        by (intros ext; now apply lookup_app_l_Some).
    destruct o as [?|?|?|own]; cbn [fst snd];
      try (split; [reflexivity|]; now rewrite Imp_getGlobalCallsWhen_at, E).
    destruct (own !! when) as [a|] eqn:Ew.
    + split; [apply Imp_getCalls_grows|].
      destruct (Imp_getCalls_grows a h) as [ext Hh]. rewrite Hh at 1.
      rewrite Imp_getGlobalCallsWhen_at, Hext, Ew.
      destruct (h !! a) as [x|] eqn:Ea.
      * apply Imp_getCalls_stable. eauto.
      * rewrite Imp_getCalls_at, Ea in Hh. cbn [snd] in Hh.
        apply (f_equal List.length) in Hh. rewrite length_app in Hh.
        destruct ext; [|simpl in Hh; lia]. now rewrite app_nil_r.
    + destruct (Object_prototype when) as [m|] eqn:Ep; cbn [fst snd].
      * split; [reflexivity|]. now rewrite Imp_getGlobalCallsWhen_at, E, Ew, Ep.
      * split.
        -- rewrite <- app_assoc. now apply prefix_app_r.
        -- rewrite Imp_getGlobalCallsWhen_at, <- app_assoc, Hext, Ew, Ep. reflexivity.
  - cbn [fst snd]. split; [reflexivity|]. now rewrite Imp_getGlobalCallsWhen_at, E.
Qed.

(** The heap functions return what the functions on lists return. *)
Lemma holds_request_grows (h ext : list Imp.object) (req : nat)
    (calls : option (list call)) :
  Imp.holds_request h req calls -> Imp.holds_request (h ++ ext)%list req calls.
Proof.
  destruct calls as [l|]; cbn [Imp.holds_request].
  - intros (a & H1 & H2). exists a. split; now apply lookup_app_l_Some.
  - intros H. now apply lookup_app_l_Some.
Qed.

Lemma Imp_getCalls_refines (h : list Imp.object) (req : nat)
    (calls : option (list call)) :
  Imp.holds_request h req calls ->
  fst (Imp.getCalls req h) = of_option (_getCalls (or_empty calls))
  /\ Imp.holds_request (snd (Imp.getCalls req h)) req calls.
Proof.
  intros H. split.
  - rewrite Imp_getCalls_request. destruct calls as [l|]; cbn [Imp.holds_request] in H.
    + destruct H as (a & -> & Ha). rewrite Imp_getCalls_at, Ha. cbn [or_empty].
      unfold _getCalls. now destruct (mapM compile_call l).
    + rewrite H. reflexivity.
  - destruct (Imp_getCalls_frame req h) as [[ext ->] _].
    now apply holds_request_grows.
Qed.

Lemma Imp_pushCall_refines (h : list Imp.object) (req : nat)
    (calls : option (list call)) (pat : string) (args : list value) :
  Imp.holds_request h req calls ->
  fst (Imp.pushCall req pat args h) = Returns tt
  /\ Imp.holds_request (snd (Imp.pushCall req pat args h)) req
       (Some (or_empty calls ++ [ {| pattern := pat; arguments := args |} ])%list).
Proof.
  unfold Imp.pushCall, Imp.bind, Imp.load, Imp.alloc, Imp.store, Imp.ret, Imp.throw.
  destruct calls as [l|]; cbn [Imp.holds_request or_empty].
  - intros (a & Hr & Ha). rewrite Hr, Ha. cbn [fst snd]. split; [reflexivity|].
    assert (a <> req) as Hne by (intros ->; congruence).
    exists a. split.
    + rewrite list_lookup_insert_ne by assumption. exact Hr.
    + apply list_lookup_insert_eq. now apply lookup_lt_Some in Ha.
  - intros Hr. rewrite Hr.
    pose proof (lookup_lt_Some _ _ _ Hr) as Hlt.
    assert ((<[req := Imp.ORequest (Some (List.length h))]> (h ++ [Imp.OCalls []])%list)
              !! List.length h = Some (Imp.OCalls [])) as ->.
    { rewrite list_lookup_insert_ne by lia. now apply list_lookup_middle. }
    cbn [fst snd]. split; [reflexivity|].
    exists (List.length h). split.
    + rewrite list_lookup_insert_ne by lia.
      apply list_lookup_insert_eq. rewrite length_app. lia.
    + apply list_lookup_insert_eq. rewrite length_insert, length_app. simpl. lia.
Qed.

Lemma Imp_getGlobalCallsWhen_refines (h : list Imp.object) (globals : nat)
    (calls : gmap string (list call)) (data : list value) (when : string) :
  Imp.holds_globals h globals calls ->
  fst (Imp.getGlobalCallsWhen globals when h)
  = getGlobalCallsWhen {| _globalCalls := calls; _globalData := data |} when
  /\ Imp.holds_globals (snd (Imp.getGlobalCallsWhen globals when h)) globals calls.
Proof.
  intros (own & Hg & Hown). split.
  - rewrite Imp_getGlobalCallsWhen_at, Hg. unfold getGlobalCallsWhen. cbn [_globalCalls].
    specialize (Hown when). destruct (own !! when) as [a|].
    + destruct Hown as (l & -> & Ha). rewrite Imp_getCalls_at, Ha.
      unfold _getCalls. now destruct (mapM compile_call l).
    + rewrite Hown. now destruct (Object_prototype when).
  - destruct (Imp_getGlobalCallsWhen_frame globals when h) as [[ext ->] _].
    exists own. split; [now apply lookup_app_l_Some|].
    intros k. specialize (Hown k). destruct (own !! k); [|exact Hown].
    destruct Hown as (l & H1 & H2). exists l. split; [exact H1|].
    now apply lookup_app_l_Some.
Qed.

(** C8.  A flush reads.  On a heap of objects, [getCalls] and
    [getGlobalCallsWhen] leave every object of the heap as it was, the
    request, [self._globalCalls] and the lists of calls among them (the
    heap only gains the lists the flush itself makes), and a second flush
    ends as the first did, with the same string.  The string is the one
    the flush of the list returns, the list is still the list of the
    request or of the key afterwards, and a call pushed after a flush
    joins the calls pushed before it. *)
Theorem flush_only_reads :
  (forall (h : list Imp.object) (req : nat),
      h `prefix_of` snd (Imp.getCalls req h)
      /\ fst (Imp.getCalls req (snd (Imp.getCalls req h))) = fst (Imp.getCalls req h))
  /\ (forall (h : list Imp.object) (globals : nat) (when : string),
         h `prefix_of` snd (Imp.getGlobalCallsWhen globals when h)
         /\ fst (Imp.getGlobalCallsWhen globals when
                   (snd (Imp.getGlobalCallsWhen globals when h)))
            = fst (Imp.getGlobalCallsWhen globals when h))
  /\ (forall (h : list Imp.object) (req : nat) (calls : option (list call))
             (data : option (list value)),
         Imp.holds_request h req calls ->
         fst (Imp.getCalls req h)
         = of_option (getCalls {| _aposCalls := calls; _aposData := data |})
         /\ Imp.holds_request (snd (Imp.getCalls req h)) req calls
         /\ forall pat args,
              Imp.holds_request
                (snd (Imp.pushCall req pat args (snd (Imp.getCalls req h)))) req
                (_aposCalls (pushCall pat args
                               {| _aposCalls := calls; _aposData := data |})))
  /\ (forall (h : list Imp.object) (globals : nat) (calls : gmap string (list call))
             (data : list value) (when : string),
         Imp.holds_globals h globals calls ->
         fst (Imp.getGlobalCallsWhen globals when h)
         = getGlobalCallsWhen {| _globalCalls := calls; _globalData := data |} when
         /\ Imp.holds_globals (snd (Imp.getGlobalCallsWhen globals when h)) globals calls).
Proof.
  split; [exact (fun h req => Imp_getCalls_frame req h)|].
  split; [exact (fun h globals when => Imp_getGlobalCallsWhen_frame globals when h)|].
  split.
  - intros h req calls data H.
    destruct (Imp_getCalls_refines h req calls H) as [H1 H2].
    split; [exact H1|]. split; [exact H2|].
    intros pat args. now apply Imp_pushCall_refines.
  - intros h globals calls data when H. now apply Imp_getGlobalCallsWhen_refines.
Qed.

Lemma flush_only_reads_witness :
  fst (Imp.getCalls 0 [Imp.ORequest (Some 1);
                       Imp.OCalls [ {| pattern := "go(?)"; arguments := [VNum 1] |} ]])
  = Returns "  go(1);"
  /\ fst (Imp.getGlobalCallsWhen 0 "user"
            [Imp.OGlobalCalls {[ "user" := 1%nat ]};
             Imp.OCalls [ {| pattern := "apos.enableAreas()"; arguments := [] |} ]])
     = Returns "  apos.enableAreas();".
Proof.
  split.
  - destruct (proj1 (proj2 (proj2 flush_only_reads))
                [Imp.ORequest (Some 1);
                 Imp.OCalls [ {| pattern := "go(?)"; arguments := [VNum 1] |} ]]
                0%nat (Some [ {| pattern := "go(?)"; arguments := [VNum 1] |} ]) None)
      as [H _].
    + exists 1%nat. split; reflexivity.
    + rewrite H. reflexivity.
  - destruct (proj2 (proj2 (proj2 flush_only_reads))
                [Imp.OGlobalCalls {[ "user" := 1%nat ]};
                 Imp.OCalls [ {| pattern := "apos.enableAreas()"; arguments := [] |} ]]
                0%nat
                {[ "user" := [ {| pattern := "apos.enableAreas()"; arguments := [] |} ] ]}
                [] "user") as [H _].
    + exists {[ "user" := 1%nat ]}. split; [reflexivity|].
      intros k. destruct (decide (k = "user")) as [->|Hk].
      * rewrite !lookup_singleton_eq. eexists. split; reflexivity.
      * rewrite !lookup_singleton_ne by congruence. reflexivity.
    + rewrite H. reflexivity.
Defined.

Lemma _getCalls_single (c : call) : _getCalls [c] = compile_call c.
Proof.
  rewrite _getCalls_expand, compile_call_expand. reflexivity.
Qed.

(** C9.  Text put in place of a placeholder is not scanned again.  For a
    pattern made of literal text, a placeholder and a rest, the line is
    the literal text, the text of the first argument, and then exactly
    what the rest of the pattern compiles to with the remaining
    arguments, whatever characters the text of the first argument holds:
    a [?] or [@] in it is copied and takes no argument. *)
Theorem substituted_text_is_not_rescanned :
  (forall (lit : string) (c : ascii) (rest : string) (a : value) (args : list value),
      placeholders lit = 0%nat ->
      is_placeholder c = true ->
      exists tail,
        _getCalls [ {| pattern := rest; arguments := args |} ] = Some ("  " ++ tail) /\
        _getCalls [ {| pattern := lit ++ String c rest; arguments := a :: args |} ]
        = Some ("  " ++ lit ++ placeholder_text c a ++ tail))
  /\ _getCalls [ {| pattern := "f(?, @, ?)";
                    arguments := [VStr "who?"; VStr "a@b?"; VNum 7] |} ]
     = Some ("  f(" ++ String dquote "who?" ++ String dquote ", a@b?, 7);").
Proof.
  split.
  - intros lit c rest a args Hlit Hc.
    exists (expand rest args ++ ";"). rewrite !_getCalls_single, !compile_call_expand.
    cbn [pattern arguments]. split; [reflexivity|].
    rewrite expand_plain by assumption. simpl. rewrite Hc.
    now rewrite !append_assoc.
  - rewrite _getCalls_expand. reflexivity.
Qed.

Lemma substituted_text_is_not_rescanned_witness :
  exists tail,
    _getCalls [ {| pattern := ", ?)"; arguments := [VNum 7] |} ] = Some ("  " ++ tail) /\
    _getCalls [ {| pattern := "f(" ++ String "@" ", ?)";
                   arguments := [VStr "a@b?"; VNum 7] |} ]
    = Some ("  " ++ "f(" ++ placeholder_text "@" (VStr "a@b?") ++ tail).
Proof.
  apply (proj1 substituted_text_is_not_rescanned "f(" "@"%char ", ?)"
           (VStr "a@b?") [VNum 7]); reflexivity.
Defined.

End PushTheorems.

(* ===================================================================== *)
(** * Properties of the data registry                                     *)
(* ===================================================================== *)

Module DataTheorems.
Import JS Push Spec StringFacts.

Lemma one_line_append (a b : string) :
  one_line (a ++ b) = one_line a && one_line b.
Proof.
  induction a as [|c a IH]; simpl; [reflexivity|].
  rewrite IH. now rewrite andb_assoc.
Qed.

Lemma one_line_concat (sep : string) (l : list string) :
  one_line sep = true ->
  Forall (fun s => one_line s = true) l ->
  one_line (String.concat sep l) = true.
Proof.
  intros Hsep H. induction H as [|x l Hx Hl IH]; [reflexivity|].
  simpl. destruct l as [|y l]; [assumption|].
  now rewrite !one_line_append, Hx, Hsep, IH.
Qed.

Lemma escape_unit_one_line (c : ascii) : one_line (escape_unit c) = true.
Proof. destruct c as [[] [] [] [] [] [] [] []]; reflexivity. Qed.

Lemma escape_units_one_line (s : string) : one_line (escape_units s) = true.
Proof.
  induction s as [|c s IH]; simpl; [reflexivity|].
  now rewrite one_line_append, escape_unit_one_line, IH.
Qed.

Lemma QuoteJSONString_one_line (s : string) : one_line (QuoteJSONString s) = true.
Proof.
  unfold QuoteJSONString. simpl.
  now rewrite one_line_append, escape_units_one_line.
Qed.

Lemma string_of_uint_one_line (d : Decimal.uint) :
  one_line (NilEmpty.string_of_uint d) = true.
Proof. induction d; simpl; auto. Qed.

Lemma NumberToString_one_line (n : Z) : one_line (NumberToString n) = true.
Proof.
  unfold NumberToString, NilZero.string_of_int, NilZero.string_of_uint.
  destruct (Z.to_int n) as [d|d]; destruct d; simpl;
    auto using string_of_uint_one_line.
Qed.

(** A JSON text holds no newline: the ones inside strings are escaped. *)
Lemma one_line_bracketed (l r : ascii) (s : string) :
  Ascii.eqb l newline = false -> Ascii.eqb r newline = false ->
  one_line s = true ->
  one_line (String l EmptyString ++ s ++ String r EmptyString) = true.
Proof.
  intros Hl Hr Hs. rewrite !one_line_append, Hs. simpl. now rewrite Hl, Hr.
Qed.

Lemma SerializeJSONProperty_one_line (v : value) :
  forall s, SerializeJSONProperty v = Some s -> one_line s = true.
Proof.
  induction v as [ | | b | n | s0 | items IH | props IH | src ]
    using value_nested_ind; intros s; cbn [SerializeJSONProperty].
  - discriminate.
  - now intros [= <-].
  - destruct b; now intros [= <-].
  - intros [= <-]. apply NumberToString_one_line.
  - intros [= <-]. apply QuoteJSONString_one_line.
  - intros [= <-]. apply one_line_bracketed; [reflexivity..|].
    apply one_line_concat; [reflexivity|].
    induction IH as [|x l Hx _ IHl]; simpl; constructor; [|assumption].
    destruct (SerializeJSONProperty x) as [t|]; [now apply Hx | reflexivity].
  - intros [= <-]. apply one_line_bracketed; [reflexivity..|].
    apply one_line_concat; [reflexivity|].
    induction IH as [|[k x] l Hx _ IHl]; cbn [flat_map fst snd]; [constructor|].
    cbn [snd] in Hx.
    destruct (SerializeJSONProperty x) as [t|]; cbn [List.app]; [|assumption].
    constructor; [|assumption].
    change (one_line (QuoteJSONString k ++ String ":" t) = true).
    now rewrite one_line_append, QuoteJSONString_one_line; cbn; apply Hx.
  - discriminate.
Qed.

Lemma json_text_one_line (v : value) : one_line (json_text v) = true.
Proof.
  unfold json_text, JSON_stringify.
  destruct (SerializeJSONProperty v) as [s|] eqn:E; simpl; [|reflexivity].
  now apply (SerializeJSONProperty_one_line v).
Qed.

Lemma merge_line_one_line (v : value) : one_line (merge_line v) = true.
Proof.
  unfold merge_line. now rewrite !one_line_append, json_text_one_line.
Qed.

(** Splitting into lines undoes a newline-join of lines. *)
Lemma lines_first (s t : string) :
  one_line s = true -> lines (s ++ String newline t) = s :: lines t.
Proof.
  induction s as [|c s IH]; [reflexivity|].
  cbn [one_line]. intros H. apply andb_prop in H as [Hc Hs].
  change (String c s ++ String newline t) with (String c (s ++ String newline t)).
  cbn [lines]. rewrite IH by assumption.
  now destruct (Ascii.eqb c newline).
Qed.

Lemma lines_single (s : string) :
  one_line s = true -> s <> EmptyString -> lines s = [s].
Proof.
  induction s as [|c s IH]; [congruence|].
  cbn [one_line lines]. intros H _. apply andb_prop in H as [Hc Hs].
  destruct (Ascii.eqb c newline); [discriminate|].
  destruct s as [|d s]; [reflexivity|].
  rewrite IH; [reflexivity | assumption | discriminate].
Qed.

Lemma lines_concat (ls : list string) :
  Forall (fun s => one_line s = true /\ s <> EmptyString) ls ->
  lines (String.concat nl ls) = ls.
Proof.
  induction 1 as [|x ls [Hx Hne] Hls IH]; [reflexivity|].
  destruct ls as [|y ls].
  - now apply lines_single.
  - change (String.concat nl (x :: y :: ls))
      with (x ++ String newline (String.concat nl (y :: ls))).
    now rewrite lines_first, IH.
Qed.

(** C2.  The data flush is the namespace guard, a newline, and the
    newline-join of one deep-merge line per datum in registration order,
    each being [  $.extend(true, apos.data, J);] with [J] the JSON text of
    the datum.  Read line by line, the block is the guard followed by
    exactly these lines; with no datum it is the guard alone.  This is
    what [getData] returns for the data list of a request and
    [getGlobalData] for the global list. *)
Theorem data_flush_is_guard_then_merge_lines :
  forall data : list value,
    _getData data = namespace_guard ++ nl ++ String.concat nl (map merge_line data)
    /\ lines (_getData data) = namespace_guard :: map merge_line data
    /\ List.length (lines (_getData data)) = S (List.length data)
    /\ lines (_getData []) = [namespace_guard]
    /\ (forall calls, getData {| _aposCalls := calls; _aposData := Some data |}
                      = _getData data)
    /\ (forall calls, getData {| _aposCalls := calls; _aposData := None |}
                      = _getData [])
    /\ (forall globals, getGlobalData {| _globalCalls := globals; _globalData := data |}
                        = _getData data).
Proof.
  intros data.
  assert (_getData data
          = namespace_guard ++ nl ++ String.concat nl (map merge_line data)) as E.
  { unfold _getData. now rewrite append_assoc. }
  assert (lines (_getData data) = namespace_guard :: map merge_line data) as L.
  { rewrite E.
    change (nl ++ String.concat nl (map merge_line data))
      with (String newline (String.concat nl (map merge_line data))).
    rewrite lines_first by reflexivity. f_equal.
    apply lines_concat.
    clear E. induction data as [|v data IH]; cbn [map]; constructor; [|exact IH].
    split; [apply merge_line_one_line | discriminate]. }
  repeat split; try assumption; try reflexivity.
  rewrite L. simpl. now rewrite length_map.
Qed.

End DataTheorems.

(* ===================================================================== *)
(** * Properties of the template environment cache and of [partial]       *)
(* ===================================================================== *)

Module TemplateTheorems.
Import JS Push Templates Spec StringFacts.

(** What [getNunjucksEnv] does, in terms of the cache key. *)
Lemma getNunjucksEnv_by_key (views : string) (pp : option (list string))
    (dirs : dirs_arg) (st : store) :
  getNunjucksEnv views pp dirs st =
  match nunjucksEnvs st !! cache_key views pp dirs with
  | Some e => (e, st)
  | None =>
      (List.length (heap st),
       {| heap := (heap st ++ [fresh_environment (search_path views pp dirs)])%list;
          nunjucksEnvs :=
            <[ cache_key views pp dirs := List.length (heap st) ]> (nunjucksEnvs st) |})
  end.
Proof.
  unfold getNunjucksEnv, cache_key, search_path, or_empty.
  assert ((match (if falsy dirs then DirsArray [] else dirs) with
           | DirsArray l => l
           | _ => [dir_text (if falsy dirs then DirsArray [] else dirs)]
           end) = normalized_dirs dirs) as ->.
  { destruct dirs as [|d|l| |b|n| |text]; cbn [falsy normalized_dirs];
      try reflexivity.
    - now destruct (String.eqb d EmptyString).
    - now destruct b.
    - now destruct (n =? 0)%Z. }
  rewrite <- app_assoc.
  destruct (nunjucksEnvs st !! _); reflexivity.
Qed.

(** After a call the key is cached, and a second call finds it. *)
Lemma getNunjucksEnv_cached (views : string) (pp : option (list string))
    (dirs : dirs_arg) (st : store) :
  nunjucksEnvs (snd (getNunjucksEnv views pp dirs st)) !! cache_key views pp dirs
  = Some (fst (getNunjucksEnv views pp dirs st)).
Proof.
  rewrite getNunjucksEnv_by_key.
  destruct (nunjucksEnvs st !! cache_key views pp dirs) eqn:E; cbn [fst snd nunjucksEnvs].
  - exact E.
  - apply lookup_insert_eq.
Qed.

Lemma getNunjucksEnv_again (views : string) (pp : option (list string))
    (dirs : dirs_arg) (st : store) :
  getNunjucksEnv views pp dirs (snd (getNunjucksEnv views pp dirs st))
  = getNunjucksEnv views pp dirs st.
Proof.
  rewrite (getNunjucksEnv_by_key views pp dirs (snd _)), getNunjucksEnv_cached.
  now destruct (getNunjucksEnv views pp dirs st).
Qed.

(** Calls under different keys return different objects. *)
Lemma getNunjucksEnv_other_key (views : string) (pp : option (list string))
    (d1 d2 : dirs_arg) (st : store) :
  store_ok st ->
  cache_key views pp d1 <> cache_key views pp d2 ->
  fst (getNunjucksEnv views pp d2 (snd (getNunjucksEnv views pp d1 st)))
  <> fst (getNunjucksEnv views pp d1 st).
Proof.
  intros [Hbound Hinj] Hne.
  rewrite (getNunjucksEnv_by_key views pp d1 st).
  destruct (nunjucksEnvs st !! cache_key views pp d1) as [e1|] eqn:E1;
    cbn [fst snd]; rewrite getNunjucksEnv_by_key; cbn [nunjucksEnvs heap].
  - destruct (nunjucksEnvs st !! cache_key views pp d2) as [e2|] eqn:E2; cbn [fst].
    + intros ->. apply Hne. eapply Hinj; eassumption.
    + apply Hbound in E1. lia.
  - rewrite lookup_insert_ne by assumption.
    destruct (nunjucksEnvs st !! cache_key views pp d2) as [e2|] eqn:E2; cbn [fst].
    + apply Hbound in E2. lia.
    + rewrite length_app. simpl. lia.
Qed.

(** The stores the module goes through are well formed. *)
Lemma empty_store_ok : store_ok empty_store.
Proof. split; intros *; cbn; rewrite lookup_empty; discriminate. Qed.

Lemma getNunjucksEnv_store_ok (views : string) (pp : option (list string))
    (dirs : dirs_arg) (st : store) :
  store_ok st -> store_ok (snd (getNunjucksEnv views pp dirs st)).
Proof.
  intros [Hbound Hinj]. rewrite getNunjucksEnv_by_key.
  destruct (nunjucksEnvs st !! cache_key views pp dirs) as [e|] eqn:E;
    cbn [snd]; [split; assumption|].
  split; cbn [heap nunjucksEnvs].
  - intros k e. rewrite length_app. simpl.
    destruct (decide (cache_key views pp dirs = k)) as [<-|Hk].
    + rewrite lookup_insert_eq. intros [= <-]. lia.
    + rewrite lookup_insert_ne by assumption. intros H%Hbound. lia.
  - intros k1 k2 e.
    destruct (decide (cache_key views pp dirs = k1)) as [<-|Hk1];
      destruct (decide (cache_key views pp dirs = k2)) as [<-|Hk2];
      rewrite ?lookup_insert_eq, ?lookup_insert_ne by assumption.
    + reflexivity.
    + intros [= <-] H%Hbound. lia.
    + intros H%Hbound [= <-]. lia.
    + apply Hinj.
Qed.

(** The colon-join tells lists of colon-free names apart. *)
Lemma concat_cons (sep a : string) (l : list string) :
  l <> [] -> String.concat sep (a :: l) = a ++ sep ++ String.concat sep l.
Proof. destruct l; [congruence | reflexivity]. Qed.

Lemma colon_split (a : string) :
  forall b x y : string,
    colon_free a = true -> colon_free b = true ->
    a ++ String ":" x = b ++ String ":" y -> a = b /\ x = y.
Proof.
  induction a as [|c a IH]; intros [|d b] x y Ha Hb; cbn [String.append].
  - intros [= ->]. auto.
  - intros [= <- _]. discriminate.
  - intros [= -> _]. discriminate.
  - cbn [colon_free] in Ha, Hb.
    apply andb_prop in Ha as [_ Ha]. apply andb_prop in Hb as [_ Hb].
    intros [= -> H]. destruct (IH b x y Ha Hb H) as [-> ->]. auto.
Qed.

Lemma colon_join_injective (rest : list string) :
  rest <> [] ->
  forall l1 l2 : list string,
    List.length l1 = List.length l2 ->
    Forall (fun d => colon_free d = true) l1 ->
    Forall (fun d => colon_free d = true) l2 ->
    String.concat ":" (l1 ++ rest) = String.concat ":" (l2 ++ rest) ->
    l1 = l2.
Proof.
  intros Hrest. induction l1 as [|a l1 IH]; intros [|b l2] Hlen H1 H2;
    try discriminate; [reflexivity|].
  inversion H1 as [|? ? Ha H1']; inversion H2 as [|? ? Hb H2']; subst.
  cbn [List.app].
  rewrite !concat_cons by (intros E; apply app_eq_nil in E as [_ E]; contradiction).
  intros H. apply colon_split in H as [-> H]; try assumption.
  f_equal. apply IH; auto.
Qed.

(** C5.  Two calls with the same argument return the same environment,
    and the second call leaves the store as it was: nothing is created.
    A call under a different cache key returns a different environment;
    this is the case for the same directories in a different order when
    no directory name contains a colon, as for [/d1], [/d2]. *)
Theorem same_directories_same_environment :
  forall (views : string) (pp : option (list string)),
    (forall dirs st,
        getNunjucksEnv views pp dirs (snd (getNunjucksEnv views pp dirs st))
        = getNunjucksEnv views pp dirs st)
    /\ (forall d1 d2 st,
           store_ok st ->
           cache_key views pp d1 <> cache_key views pp d2 ->
           fst (getNunjucksEnv views pp d2 (snd (getNunjucksEnv views pp d1 st)))
           <> fst (getNunjucksEnv views pp d1 st))
    /\ (forall l1 l2 st,
           store_ok st ->
           Permutation l1 l2 -> l1 <> l2 ->
           Forall (fun d => colon_free d = true) l1 ->
           fst (getNunjucksEnv views pp (DirsArray l2)
                  (snd (getNunjucksEnv views pp (DirsArray l1) st)))
           <> fst (getNunjucksEnv views pp (DirsArray l1) st))
    /\ (let st1 := snd (getNunjucksEnv views pp (DirsArray ["/d1"; "/d2"]) empty_store) in
        let st2 := snd (getNunjucksEnv views pp (DirsArray ["/d1"; "/d2"]) st1) in
        fst (getNunjucksEnv views pp (DirsArray ["/d1"; "/d2"]) empty_store) = 0%nat /\
        fst (getNunjucksEnv views pp (DirsArray ["/d1"; "/d2"]) st1) = 0%nat /\
        st2 = st1 /\
        fst (getNunjucksEnv views pp (DirsArray ["/d2"; "/d1"]) st2) = 1%nat).
Proof.
  intros views pp.
  assert (forall l1 l2 st,
             store_ok st ->
             Permutation l1 l2 -> l1 <> l2 ->
             Forall (fun d => colon_free d = true) l1 ->
             fst (getNunjucksEnv views pp (DirsArray l2)
                    (snd (getNunjucksEnv views pp (DirsArray l1) st)))
             <> fst (getNunjucksEnv views pp (DirsArray l1) st)) as Hperm.
  { intros l1 l2 st Hok Hp Hne Hfree.
    apply getNunjucksEnv_other_key; [assumption|].
    unfold cache_key, search_path. cbn [normalized_dirs]. intros Hkey.
    apply Hne.
    apply (colon_join_injective (or_empty pp ++ [views])%list);
      [ destruct (or_empty pp); discriminate
      | now apply Permutation_length
      | assumption
      | now apply (Permutation_Forall Hp)
      | assumption ]. }
  split; [|split; [|split]].
  - intros dirs st. apply getNunjucksEnv_again.
  - intros d1 d2 st. apply getNunjucksEnv_other_key.
  - exact Hperm.
  - cbn zeta. rewrite getNunjucksEnv_again.
    assert (fst (getNunjucksEnv views pp (DirsArray ["/d1"; "/d2"]) empty_store) = 0%nat)
      as E0.
    { rewrite getNunjucksEnv_by_key. cbn [empty_store nunjucksEnvs].
      now rewrite lookup_empty. }
    split; [exact E0|]. split; [exact E0|]. split; [reflexivity|].
    pose proof (Hperm ["/d1"; "/d2"] ["/d2"; "/d1"] empty_store empty_store_ok) as H.
    rewrite E0 in H.
    assert (fst (getNunjucksEnv views pp (DirsArray ["/d2"; "/d1"])
                   (snd (getNunjucksEnv views pp (DirsArray ["/d1"; "/d2"]) empty_store)))
            <> 0%nat) as Hne.
    { apply H; [apply perm_swap | discriminate | repeat constructor]. }
    revert Hne. rewrite (getNunjucksEnv_by_key _ _ _ (snd _)).
    rewrite (getNunjucksEnv_by_key _ _ _ empty_store).
    cbn [empty_store nunjucksEnvs]. rewrite lookup_empty. cbn [snd nunjucksEnvs heap].
    destruct (_ !! _) as [e|] eqn:E; cbn [fst]; [|reflexivity].
    intros Hne. exfalso. apply Hne.
    destruct (decide (cache_key views pp (DirsArray ["/d1"; "/d2"])
                      = cache_key views pp (DirsArray ["/d2"; "/d1"]))) as [Hk|Hk].
    + rewrite Hk, lookup_insert_eq in E. now injection E.
    + rewrite lookup_insert_ne, lookup_empty in E by assumption. discriminate.
Qed.

Lemma same_directories_same_environment_witness :
  fst (getNunjucksEnv "/views" None (DirsArray ["/b"; "/a"])
         (snd (getNunjucksEnv "/views" None (DirsArray ["/a"; "/b"]) empty_store)))
  <> fst (getNunjucksEnv "/views" None (DirsArray ["/a"; "/b"]) empty_store).
Proof.
  apply (proj1 (proj2 (proj2 (same_directories_same_environment "/views" None)))).
  - apply empty_store_ok.
  - apply perm_swap.
  - discriminate.
  - repeat constructor.
Defined.

(** Against C5 as stated: the directories [/x] and [/x:/x], in one order
    and in the other, have the same colon-join, and the second call
    returns the environment of the first. *)
Lemma reordered_directories_can_share_an_environment :
  Permutation ["/x"; "/x:/x"] ["/x:/x"; "/x"]
  /\ ["/x"; "/x:/x"] <> ["/x:/x"; "/x"]
  /\ fst (getNunjucksEnv "/views" None (DirsArray ["/x:/x"; "/x"])
            (snd (getNunjucksEnv "/views" None (DirsArray ["/x"; "/x:/x"]) empty_store)))
     = fst (getNunjucksEnv "/views" None (DirsArray ["/x"; "/x:/x"]) empty_store).
Proof.
  split; [apply perm_swap|]. split; [discriminate|]. reflexivity.
Qed.

(** C6.  The directory argument becomes an ordered list: the empty list
    when it is missing or falsy ([undefined], [null], [false], [0],
    [NaN], the empty string), the array itself when it is an array, and a
    one-element list holding it for any other value.  The configured
    partial paths and then the views directory of the module are
    appended, so that the views directory is searched last.  The cache is
    consulted, and filled, under the colon-join of that list, and an
    environment created on a miss searches exactly that list. *)
Theorem cache_key_is_the_colon_join :
  forall (views : string) (pp : option (list string)) (dirs : dirs_arg) (st : store),
    let path := (normalized_dirs dirs ++ or_empty pp ++ [views])%list in
    let key := String.concat ":" path in
    last path = Some views
    /\ getNunjucksEnv views pp dirs st
       = match nunjucksEnvs st !! key with
         | Some e => (e, st)
         | None =>
             (List.length (heap st),
              {| heap := (heap st ++ [fresh_environment path])%list;
                 nunjucksEnvs := <[ key := List.length (heap st) ]> (nunjucksEnvs st) |})
         end
    /\ searchPaths (fresh_environment path) = path
    /\ nunjucksEnvs (snd (getNunjucksEnv views pp dirs st)) !! key
       = Some (fst (getNunjucksEnv views pp dirs st)).
Proof.
  intros views pp dirs st path key. repeat split.
  - unfold path. now rewrite app_assoc, last_snoc.
  - apply getNunjucksEnv_by_key.
  - apply getNunjucksEnv_cached.
Qed.

(** Against C6 as stated: a single directory that is the empty string is
    not wrapped, and neither is the number [0].  The environment created
    searches the views directory alone and is cached under its name, not
    under the colon-join of the wrapped list. *)
Lemma empty_string_directory_is_not_wrapped :
  wrapped_dirs (DirsString EmptyString) = [EmptyString]
  /\ String.concat ":" (wrapped_dirs (DirsString EmptyString) ++ ["/views"]) = ":/views"
  /\ getNunjucksEnv "/views" None (DirsString EmptyString) empty_store
     = (0%nat,
        {| heap := [fresh_environment ["/views"]];
           nunjucksEnvs := {[ "/views" := 0%nat ]} |})
  /\ nunjucksEnvs (snd (getNunjucksEnv "/views" None (DirsString EmptyString) empty_store))
       !! ":/views" = None
  /\ String.concat ":" (wrapped_dirs (DirsNumber 0) ++ ["/views"]) = "0:/views"
  /\ getNunjucksEnv "/views" None (DirsNumber 0) empty_store
     = (0%nat,
        {| heap := [fresh_environment ["/views"]];
           nunjucksEnvs := {[ "/views" := 0%nat ]} |}).
Proof. repeat split. Qed.

(** C10.  The cache key does not determine the directory list: the list
    of the single name [/a:/b] and the list of [/a] and [/b] differ and
    have the same colon-join.  A call with the second after a call with
    the first returns the environment of the first and creates nothing,
    although the two search paths differ; from the empty store, that
    environment searches the first path. *)
Theorem cache_key_is_not_injective :
  let l1 := ["/a:/b"] in
  let l2 := ["/a"; "/b"] in
  l1 <> l2
  /\ String.concat ":" l1 = String.concat ":" l2
  /\ forall (views : string) (pp : option (list string)),
       cache_key views pp (DirsArray l1) = cache_key views pp (DirsArray l2)
       /\ search_path views pp (DirsArray l1) <> search_path views pp (DirsArray l2)
       /\ (forall st,
              getNunjucksEnv views pp (DirsArray l2)
                (snd (getNunjucksEnv views pp (DirsArray l1) st))
              = getNunjucksEnv views pp (DirsArray l1) st)
       /\ (let r := getNunjucksEnv views pp (DirsArray l2)
                      (snd (getNunjucksEnv views pp (DirsArray l1) empty_store)) in
           searchPaths <$> heap (snd r) !! fst r
           = Some (search_path views pp (DirsArray l1))).
Proof.
  intros l1 l2. split; [discriminate|]. split; [reflexivity|].
  intros views pp.
  assert (cache_key views pp (DirsArray l1) = cache_key views pp (DirsArray l2)) as Hkey.
  { unfold cache_key, search_path, l1, l2. cbn [normalized_dirs List.app].
    rewrite !concat_cons by (destruct (or_empty pp); discriminate).
    reflexivity. }
  assert (forall st,
             getNunjucksEnv views pp (DirsArray l2)
               (snd (getNunjucksEnv views pp (DirsArray l1) st))
             = getNunjucksEnv views pp (DirsArray l1) st) as Hsame.
  { intros st. rewrite (getNunjucksEnv_by_key _ _ (DirsArray l2)), <- Hkey.
    rewrite getNunjucksEnv_cached. now destruct (getNunjucksEnv views pp (DirsArray l1) st). }
  repeat split; try assumption.
  - unfold search_path, l1, l2. cbn [normalized_dirs List.app]. discriminate.
  - cbn zeta. rewrite Hsame, getNunjucksEnv_by_key.
    cbn [empty_store nunjucksEnvs heap]. rewrite lookup_empty.
    reflexivity.
Qed.

(** What [_.defaults] leaves under a key: the value of the source when
    the object has [undefined] there and the source has the key, what the
    object had otherwise. *)
Lemma lookup_defaults (V : Type) (obj source : gmap string (slot V)) (k : string) :
  _defaults V obj source !! k
  = if is_undefined V obj k
    then match source !! k with
         | Some x => Some x
         | None => obj !! k
         end
    else obj !! k.
Proof.
  unfold _defaults.
  destruct (is_undefined V obj k) eqn:U.
  - destruct (source !! k) as [x|] eqn:S.
    + apply lookup_union_Some_l, map_lookup_filter_Some. auto.
    + rewrite lookup_union_r; [reflexivity|].
      apply map_lookup_filter_None. now left.
  - rewrite lookup_union_r; [reflexivity|].
    apply map_lookup_filter_None. right. intros x _. cbn. congruence.
Qed.

Lemma partial_data (views : string) (pp : option (list string)) (V : Type)
    (self_partial : V) (locals : gmap string (slot V))
    (nunjucks : Environment -> string -> gmap string (slot V) -> store
                -> outcome string * store)
    (name : string) (data : option (gmap string (slot V))) (dirs : dirs_arg) (st : store) :
  snd (fst (partial views pp V self_partial locals nunjucks name data dirs st))
  = Runs.augmented self_partial locals data.
Proof.
  unfold partial, Runs.augmented.
  destruct (getNunjucksEnv views pp dirs st) as [e st'].
  destruct (heap st' !! e) as [env|]; [|reflexivity].
  now destruct (nunjucks env _ _ st').
Qed.

Lemma lookup_augmented (V : Type) (self_partial : V) (locals : gmap string (slot V))
    (data : option (gmap string (slot V))) (k : string) :
  Runs.augmented self_partial locals data !! k
  = let given := match data with Some d => d | None => ∅ end in
    if String.eqb k "partial"
    then if is_undefined V given "partial"
         then Some (SValue self_partial)
         else given !! "partial"
    else if is_undefined V given k
         then match locals !! k with
              | Some x => Some x
              | None => given !! k
              end
         else given !! k.
Proof.
  unfold Runs.augmented. cbn zeta.
  set (given := match data with Some d => d | None => ∅ end).
  rewrite lookup_defaults.
  destruct (String.eqb_spec k "partial") as [->|Hk].
  - destruct (is_undefined V given "partial") eqn:U; [|now rewrite U].
    unfold is_undefined at 1. now rewrite lookup_insert_eq.
  - assert (forall g : gmap string (slot V),
               is_undefined V (<[ "partial" := SValue self_partial ]> g) k
               = is_undefined V g k) as Hi
        by (intros g; unfold is_undefined; now rewrite lookup_insert_ne by congruence).
    destruct (is_undefined V given "partial").
    + rewrite Hi, lookup_insert_ne by congruence. reflexivity.
    + reflexivity.
Qed.




End TemplateTheorems.

(* ===================================================================== *)
(** * Further properties of the registries                                *)
(* ===================================================================== *)

Module RegistryProperties.
Import JS Push Spec Runs StringFacts PushFacts DataTheorems.

Lemma concat_snoc (sep : string) (l : list string) (x : string) :
  String.concat sep (l ++ [x])
  = match l with
    | [] => x
    | _ :: _ => String.concat sep l ++ sep ++ x
    end.
Proof.
  induction l as [|a l IH]; [reflexivity|].
  change ((a :: l) ++ [x])%list with (a :: (l ++ [x]))%list.
  destruct l as [|b l]; [reflexivity|].
  change (String.concat sep (a :: (b :: l) ++ [x]))
    with (a ++ sep ++ String.concat sep ((b :: l) ++ [x])).
  rewrite IH.
  change (String.concat sep (a :: b :: l)) with (a ++ sep ++ String.concat sep (b :: l)).
  now rewrite !append_assoc.
Qed.

Lemma _getCalls_snoc (calls : list call) (c : call) :
  _getCalls (calls ++ [c])
  = Some match calls with
         | [] => line_of c
         | _ :: _ => String.concat nl (map line_of calls) ++ nl ++ line_of c
         end.
Proof.
  rewrite _getCalls_expand, map_app. cbn [map].
  fold line_of. change (map (fun c0 => "  " ++ expand (pattern c0) (arguments c0) ++ ";") calls)
    with (map line_of calls).
  rewrite concat_snoc. now destruct calls.
Qed.

(** X1.  Pushing a call on a request adds one line to what [getCalls]
    returns: the flush is the line alone when nothing was pushed before,
    and the earlier flush, a newline and the line otherwise.  What
    [getData] returns is not affected. *)
Theorem pushCall_adds_one_line :
  forall (pat : string) (args : list value) (req : request),
    exists prev line,
      getCalls req = Some prev /\
      _getCalls [ {| pattern := pat; arguments := args |} ] = Some line /\
      getCalls (pushCall pat args req)
      = Some match or_empty (_aposCalls req) with
             | [] => line
             | _ :: _ => prev ++ nl ++ line
             end /\
      getData (pushCall pat args req) = getData req.
Proof.
  intros pat args req.
  exists (String.concat nl (map line_of (or_empty (_aposCalls req)))),
         (line_of {| pattern := pat; arguments := args |}).
  split; [unfold getCalls; now rewrite _getCalls_expand|].
  split; [now rewrite _getCalls_expand|].
  split; [|reflexivity].
  unfold getCalls, pushCall. cbn [_aposCalls or_empty].
  change (match _aposCalls req with Some l => l | None => [] end)
    with (or_empty (_aposCalls req)).
  rewrite _getCalls_snoc. now destruct (or_empty (_aposCalls req)).
Qed.

Lemma getGlobalCallsWhen_own (self : apos) (when : string) :
  Object_prototype when = None \/ is_Some (_globalCalls self !! when) ->
  getGlobalCallsWhen self when
  = Returns (String.concat nl (map line_of (or_empty (_globalCalls self !! when)))).
Proof.
  intros H. unfold getGlobalCallsWhen.
  destruct (_globalCalls self !! when) as [l|] eqn:E; cbn [or_empty].
  - now rewrite _getCalls_expand.
  - destruct H as [-> | [x Hx]]; [reflexivity | discriminate].
Qed.

(** X2.  Under an activation key that is not the name of an inherited
    member, or that has a list already, [pushGlobalCallWhen] returns and
    adds one line to the flush of that key, as [pushCall] does for a
    request.  Under the name of an inherited member that has no list it
    throws and changes nothing.  Either way the flush of every other key
    and the global data are as they were. *)
Theorem pushGlobalCallWhen_touches_one_key :
  forall (when pat : string) (args : list value) (self : apos),
    (Object_prototype when = None \/ is_Some (_globalCalls self !! when) ->
     fst (pushGlobalCallWhen when pat args self) = Returns tt /\
     exists prev line,
       getGlobalCallsWhen self when = Returns prev /\
       _getCalls [ {| pattern := pat; arguments := args |} ] = Some line /\
       getGlobalCallsWhen (snd (pushGlobalCallWhen when pat args self)) when
       = Returns match or_empty (_globalCalls self !! when) with
                 | [] => line
                 | _ :: _ => prev ++ nl ++ line
                 end)
    /\ (is_Some (Object_prototype when) ->
        _globalCalls self !! when = None ->
        pushGlobalCallWhen when pat args self = (Throws "TypeError", self))
    /\ (forall other : string,
           other <> when ->
           getGlobalCallsWhen (snd (pushGlobalCallWhen when pat args self)) other
           = getGlobalCallsWhen self other)
    /\ getGlobalData (snd (pushGlobalCallWhen when pat args self)) = getGlobalData self.
Proof.
  intros when pat args self. split; [|split; [|split]].
  - intros H. rewrite pushGlobalCallWhen_own by assumption. cbn [fst snd].
    split; [reflexivity|].
    exists (String.concat nl (map line_of (or_empty (_globalCalls self !! when)))),
           (line_of {| pattern := pat; arguments := args |}).
    split; [now apply getGlobalCallsWhen_own|].
    split; [now rewrite _getCalls_expand|].
    rewrite getGlobalCallsWhen_own
      by (right; cbn [_globalCalls]; rewrite lookup_insert_eq; eauto).
    cbn [_globalCalls]. rewrite lookup_insert_eq. cbn [or_empty].
    f_equal. rewrite map_app. cbn [map]. rewrite concat_snoc.
    now destruct (or_empty (_globalCalls self !! when)).
  - intros [m Hm] Hw. unfold pushGlobalCallWhen. now rewrite Hw, Hm.
  - intros other Hne. unfold pushGlobalCallWhen.
    destruct (_globalCalls self !! when); [|destruct (Object_prototype when)];
      cbn [snd]; try reflexivity;
      unfold getGlobalCallsWhen; cbn [_globalCalls];
      now rewrite lookup_insert_ne by congruence.
  - unfold pushGlobalCallWhen.
    destruct (_globalCalls self !! when); [|destruct (Object_prototype when)];
      reflexivity.
Qed.

Lemma pushGlobalCallWhen_touches_one_key_witness :
  getGlobalCallsWhen (snd (pushGlobalCallWhen "user" "apos.edit(?)" [VNum 1] init)) "always"
  = getGlobalCallsWhen init "always"
  /\ pushGlobalCallWhen "toString" "apos.edit(?)" [VNum 1] init = (Throws "TypeError", init)
  /\ fst (pushGlobalCallWhen "user" "apos.edit(?)" [VNum 1] init) = Returns tt.
Proof.
  destruct (pushGlobalCallWhen_touches_one_key "user" "apos.edit(?)" [VNum 1] init)
    as (H1 & _ & H3 & _).
  destruct (pushGlobalCallWhen_touches_one_key "toString" "apos.edit(?)" [VNum 1] init)
    as (_ & H2 & _).
  split; [apply H3; discriminate|].
  split; [apply H2; [eexists; reflexivity | reflexivity]|].
  apply H1. left. reflexivity.
Defined.

(** What a sequence of pushes leaves in each of the four lists. *)
Lemma run_cons (p : push) (ps : list push) (w : world) :
  run (p :: ps) w = run ps (apply_push p w).
Proof. reflexivity. Qed.

Lemma run_calls (ps : list push) :
  forall w, or_empty (_aposCalls (req (run ps w)))
            = (or_empty (_aposCalls (req w)) ++ pushed_calls ps)%list.
Proof.
  induction ps as [|p ps IH]; intros w.
  - cbn. now rewrite app_nil_r.
  - rewrite run_cons, IH. unfold pushed_calls. cbn [flat_map].
    destruct p; cbn [apply_push req pushCall pushData _aposCalls or_empty List.app];
      try reflexivity.
    now rewrite <- app_assoc.
Qed.

Lemma run_data (ps : list push) :
  forall w, or_empty (_aposData (req (run ps w)))
            = (or_empty (_aposData (req w)) ++ pushed_data ps)%list.
Proof.
  induction ps as [|p ps IH]; intros w.
  - cbn. now rewrite app_nil_r.
  - rewrite run_cons, IH. unfold pushed_data. cbn [flat_map].
    destruct p; cbn [apply_push req pushCall pushData _aposData or_empty List.app];
      try reflexivity.
    now rewrite <- app_assoc.
Qed.

Lemma pushGlobalCallWhen_data (when pat : string) (args : list value) (self : apos) :
  _globalData (snd (pushGlobalCallWhen when pat args self)) = _globalData self.
Proof.
  unfold pushGlobalCallWhen.
  destruct (_globalCalls self !! when); [|destruct (Object_prototype when)]; reflexivity.
Qed.

Lemma run_global_data (ps : list push) :
  forall w, _globalData (self (run ps w))
            = (_globalData (self w) ++ pushed_global_data ps)%list.
Proof.
  induction ps as [|p ps IH]; intros w.
  - cbn. now rewrite app_nil_r.
  - rewrite run_cons, IH. unfold pushed_global_data. cbn [flat_map].
    destruct p; cbn [apply_push self pushGlobalData _globalData List.app];
      try reflexivity.
    + now rewrite pushGlobalCallWhen_data.
    + now rewrite <- app_assoc.
Qed.

(** Under a key that takes pushes, the list grows by the pushes made
    under it. *)
Lemma apply_push_global_calls (when : string) (p : push) (w : world) :
  Object_prototype when = None \/ is_Some (_globalCalls (self w) !! when) ->
  or_empty (_globalCalls (self (apply_push p w)) !! when)
  = (or_empty (_globalCalls (self w) !! when) ++ pushed_global_calls when [p])%list
  /\ (Object_prototype when = None
      \/ is_Some (_globalCalls (self (apply_push p w)) !! when)).
Proof.
  intros H. unfold pushed_global_calls. cbn [flat_map].
  destruct p as [ pat args | key pat args | datum | datum ];
    cbn [apply_push self List.app]; rewrite ?app_nil_r; auto.
  destruct (String.eqb_spec key when) as [->|Hne].
  - rewrite pushGlobalCallWhen_own by assumption. cbn [snd _globalCalls].
    rewrite lookup_insert_eq. cbn [or_empty]. split; [reflexivity | eauto].
  - assert (_globalCalls (snd (pushGlobalCallWhen key pat args (self w))) !! when
            = _globalCalls (self w) !! when) as ->.
    { unfold pushGlobalCallWhen.
      destruct (_globalCalls (self w) !! key); [|destruct (Object_prototype key)];
        cbn [snd _globalCalls]; try reflexivity;
        now rewrite lookup_insert_ne by assumption. }
    rewrite app_nil_r. auto.
Qed.

Lemma run_global_calls (when : string) (ps : list push) :
  forall w,
    Object_prototype when = None \/ is_Some (_globalCalls (self w) !! when) ->
    or_empty (_globalCalls (self (run ps w)) !! when)
    = (or_empty (_globalCalls (self w) !! when) ++ pushed_global_calls when ps)%list
    /\ (Object_prototype when = None
        \/ is_Some (_globalCalls (self (run ps w)) !! when)).
Proof.
  induction ps as [|p ps IH]; intros w H.
  - cbn. now rewrite app_nil_r.
  - rewrite run_cons.
    destruct (apply_push_global_calls when p w H) as [E1 H1].
    destruct (IH _ H1) as [E2 H2]. split; [|exact H2].
    rewrite E2, E1, <- app_assoc. f_equal.
    unfold pushed_global_calls. cbn [flat_map]. now rewrite app_nil_r.
Qed.

(** Under the name of an inherited member that has no list, every push
    throws, and no list appears. *)
Lemma run_inherited (when : string) (ps : list push) :
  forall w,
    is_Some (Object_prototype when) ->
    _globalCalls (self w) !! when = None ->
    _globalCalls (self (run ps w)) !! when = None.
Proof.
  induction ps as [|p ps IH]; intros w Hp Hw; [exact Hw|].
  rewrite run_cons. apply IH; [exact Hp|].
  destruct p as [ pat args | key pat args | datum | datum ]; cbn [apply_push self]; try exact Hw.
  unfold pushGlobalCallWhen.
  destruct (decide (key = when)) as [->|Hne].
  - rewrite Hw. destruct Hp as [m ->]. exact Hw.
  - destruct (_globalCalls (self w) !! key); [|destruct (Object_prototype key)];
      cbn [snd _globalCalls]; try exact Hw;
      now rewrite lookup_insert_ne by assumption.
Qed.

(** X3.  After any sequence of pushes, each flush returns what it
    returns for the list it started from followed by the pushes made to
    that list, in the order they were made: pushes to the other lists and
    pushes under other activation keys change nothing, and nothing is
    ever removed.  For global calls this holds of a key that has a list
    or is not the name of an inherited member; under such a name, without
    a list, every push throws, and the flush stays what the inherited
    member makes it. *)
Theorem flushes_depend_on_their_own_pushes :
  forall (ps : list push) (w : world),
    getCalls (req (run ps w))
    = _getCalls (or_empty (_aposCalls (req w)) ++ pushed_calls ps)
    /\ getData (req (run ps w))
       = _getData (or_empty (_aposData (req w)) ++ pushed_data ps)
    /\ getGlobalData (self (run ps w))
       = _getData (_globalData (self w) ++ pushed_global_data ps)
    /\ (forall when : string,
           Object_prototype when = None \/ is_Some (_globalCalls (self w) !! when) ->
           getGlobalCallsWhen (self (run ps w)) when
           = of_option (_getCalls (or_empty (_globalCalls (self w) !! when)
                                   ++ pushed_global_calls when ps)))
    /\ (forall (when : string) (m : member),
           Object_prototype when = Some m ->
           _globalCalls (self w) !! when = None ->
           getGlobalCallsWhen (self (run ps w)) when = _getCalls_member m).
Proof.
  intros ps w. unfold getCalls, getData, getGlobalData.
  rewrite run_calls, run_data, run_global_data.
  repeat split.
  - intros when Hp.
    destruct (run_global_calls when ps w Hp) as [E H].
    rewrite getGlobalCallsWhen_own by assumption. rewrite E, _getCalls_expand.
    reflexivity.
  - intros when m Hp Hw. unfold getGlobalCallsWhen.
    rewrite (run_inherited when ps w) by eauto. now rewrite Hp.
Qed.

Lemma flushes_depend_on_their_own_pushes_witness :
  getGlobalCallsWhen
    (self (run [PushGlobalCallWhen "user" "apos.edit()" []; PushData VNull;
                PushGlobalCallWhen "valueOf" "apos.edit()" []]
               {| req := {| _aposCalls := None; _aposData := None |}; self := init |}))
    "user"
  = Returns ("  apos.enableAreas();" ++ nl ++ "  apos.edit();")
  /\ getGlobalCallsWhen
       (self (run [PushGlobalCallWhen "user" "apos.edit()" []; PushData VNull;
                   PushGlobalCallWhen "valueOf" "apos.edit()" []]
                  {| req := {| _aposCalls := None; _aposData := None |}; self := init |}))
       "valueOf"
     = Returns EmptyString.
Proof.
  destruct (flushes_depend_on_their_own_pushes
              [PushGlobalCallWhen "user" "apos.edit()" []; PushData VNull;
               PushGlobalCallWhen "valueOf" "apos.edit()" []]
              {| req := {| _aposCalls := None; _aposData := None |}; self := init |})
    as (_ & _ & _ & H1 & H2).
  split.
  - rewrite H1 by (left; reflexivity). reflexivity.
  - rewrite (H2 "valueOf" (MFunction 0)) by reflexivity. reflexivity.
Defined.

(** The text of a [?] never breaks a line. *)
Lemma expand_one_line (pat : string) :
  forall args : list value,
    one_line pat = true -> Filters.occurs "@" pat = false ->
    one_line (expand pat args) = true.
Proof.
  induction pat as [|c pat IH]; intros args; [reflexivity|].
  cbn [one_line Filters.occurs expand].
  intros H1 H2. apply andb_prop in H1 as [Hc H1].
  apply orb_false_elim in H2 as [Hat H2].
  unfold is_placeholder, placeholder_text. rewrite Hat, orb_false_r.
  destruct (Ascii.eqb c "?").
  - destruct args as [|a args]; rewrite one_line_append.
    + now rewrite IH.
    + now rewrite json_text_one_line, IH.
  - cbn [one_line]. now rewrite Hc, IH.
Qed.

(** X4.  When no pattern contains a newline or an [@], the flush of [N]
    calls has exactly [N] lines, one per call: whatever the arguments of
    the [?] placeholders hold, their JSON text stays on the line.  An [@]
    argument is not so confined: a newline in it splits the line. *)
Theorem json_arguments_stay_on_their_line :
  (forall calls : list call,
      Forall (fun c => one_line (pattern c) = true /\
                       Filters.occurs "@" (pattern c) = false) calls ->
      exists ls,
        _getCalls calls = Some (String.concat nl ls) /\
        lines (String.concat nl ls) = ls /\
        List.length ls = List.length calls)
  /\ (exists s,
         _getCalls [ {| pattern := "say(@)";
                        arguments := [VStr ("a" ++ nl ++ "b")] |} ] = Some s /\
         List.length (lines s) = 2%nat).
Proof.
  split.
  - intros calls H. exists (map line_of calls).
    split; [apply _getCalls_expand|]. split; [|apply length_map].
    apply lines_concat.
    induction H as [|c calls [H1 H2] _ IH]; cbn [map]; constructor; [|exact IH].
    split; [|discriminate].
    unfold line_of. rewrite !one_line_append, expand_one_line by assumption.
    reflexivity.
  - eexists. split; [rewrite _getCalls_expand; reflexivity | reflexivity].
Qed.

Lemma json_arguments_stay_on_their_line_witness :
  exists ls,
    _getCalls [ {| pattern := "note(?)"; arguments := [VStr ("a" ++ nl ++ "b")] |};
                {| pattern := "go()"; arguments := [] |} ]
    = Some (String.concat nl ls) /\
    lines (String.concat nl ls) = ls /\
    List.length ls = 2%nat.
Proof.
  apply (proj1 json_arguments_stay_on_their_line
           [ {| pattern := "note(?)"; arguments := [VStr ("a" ++ nl ++ "b")] |};
             {| pattern := "go()"; arguments := [] |} ]).
  repeat constructor.
Defined.

Lemma _getData_lines (data : list value) :
  lines (_getData data) = namespace_guard :: map merge_line data.
Proof.
  unfold _getData. rewrite append_assoc.
  change (nl ++ String.concat nl
            (map (fun datum => "  $.extend(true, apos.data, "
                               ++ ToString (JSON_stringify datum) ++ ");") data))
    with (String newline (String.concat nl (map merge_line data))).
  rewrite lines_first by reflexivity. f_equal.
  apply lines_concat.
  induction data as [|v data IH]; cbn [map]; constructor; [|exact IH].
  split; [apply merge_line_one_line | discriminate].
Qed.

(** X5.  Pushing a datum on a request adds one line, the deep-merge line
    of the datum, after the lines [getData] returned before, and leaves
    what [getCalls] returns as it was. *)
Theorem pushData_adds_one_merge_line :
  forall (datum : value) (req : request),
    lines (getData (pushData datum req)) = (lines (getData req) ++ [merge_line datum])%list
    /\ getCalls (pushData datum req) = getCalls req.
Proof.
  intros datum req. split; [|reflexivity].
  unfold getData, pushData. cbn [_aposData or_empty].
  change (match _aposData req with Some l => l | None => [] end)
    with (or_empty (_aposData req)).
  rewrite !_getData_lines, map_app. reflexivity.
Qed.

Lemma expand_app (p1 p2 : string) :
  forall a1 a2 : list value,
    placeholders p1 = List.length a1 ->
    expand (p1 ++ p2) (a1 ++ a2) = expand p1 a1 ++ expand p2 a2.
Proof.
  induction p1 as [|c p1 IH]; intros a1 a2 H; simpl in *.
  - destruct a1; [reflexivity | discriminate].
  - destruct (is_placeholder c).
    + destruct a1 as [|a a1]; [discriminate|].
      simpl in *. rewrite IH by lia. now rewrite append_assoc.
    + now rewrite IH by lia.
Qed.

(** X6.  Patterns compose: when a first pattern has as many placeholders
    as a first list has arguments, the line of the two patterns put end
    to end, with the two argument lists put end to end, is the text of
    the first line followed by the text of the second. *)
Theorem patterns_compose :
  forall (p1 p2 : string) (a1 a2 : list value),
    placeholders p1 = List.length a1 ->
    exists b1 b2,
      _getCalls [ {| pattern := p1; arguments := a1 |} ] = Some ("  " ++ b1 ++ ";") /\
      _getCalls [ {| pattern := p2; arguments := a2 |} ] = Some ("  " ++ b2 ++ ";") /\
      _getCalls [ {| pattern := p1 ++ p2; arguments := (a1 ++ a2)%list |} ]
      = Some ("  " ++ b1 ++ b2 ++ ";").
Proof.
  intros p1 p2 a1 a2 H. exists (expand p1 a1), (expand p2 a2).
  rewrite !_getCalls_expand. cbn [map pattern arguments String.concat].
  repeat split. now rewrite expand_app, append_assoc.
Qed.

Lemma patterns_compose_witness :
  exists b1 b2,
    _getCalls [ {| pattern := "new @("; arguments := [VStr "Widget"] |} ]
    = Some ("  " ++ b1 ++ ";") /\
    _getCalls [ {| pattern := "?)"; arguments := [VNum 3] |} ] = Some ("  " ++ b2 ++ ";") /\
    _getCalls [ {| pattern := "new @(" ++ "?)";
                   arguments := ([VStr "Widget"] ++ [VNum 3])%list |} ]
    = Some ("  " ++ b1 ++ b2 ++ ";").
Proof.
  apply (patterns_compose "new @(" "?)" [VStr "Widget"] [VNum 3]). reflexivity.
Defined.

(** X7.  The two calls pushed when the module is loaded are emitted
    first.  Whatever pushes follow, the flush of the key [user] begins
    with [  apos.enableAreas();] and the flush of the key [always] with
    [  apos.enablePlayers();]; a key other than these two that is not the
    name of an inherited member and under which nothing was pushed
    flushes to the empty string. *)
Theorem built_in_calls_come_first :
  forall (ps : list push) (r : request),
    (exists rest,
        getGlobalCallsWhen (self (run ps {| req := r; self := init |})) "user"
        = Returns ("  apos.enableAreas();" ++ rest))
    /\ (exists rest,
           getGlobalCallsWhen (self (run ps {| req := r; self := init |})) "always"
           = Returns ("  apos.enablePlayers();" ++ rest))
    /\ (forall when : string,
           when <> "user" -> when <> "always" ->
           Object_prototype when = None ->
           pushed_global_calls when ps = [] ->
           getGlobalCallsWhen (self (run ps {| req := r; self := init |})) when
           = Returns EmptyString).
Proof.
  intros ps r.
  assert (forall (l : string) (ls : list string),
             exists rest, String.concat nl (l :: ls) = l ++ rest) as Hc.
  { intros l [|x ls]; [exists EmptyString; now rewrite append_nil_r|].
    eexists. reflexivity. }
  assert (forall when, Object_prototype when = None ->
             getGlobalCallsWhen (self (run ps {| req := r; self := init |})) when
             = Returns (String.concat nl
                          (map line_of (or_empty (_globalCalls init !! when)
                                        ++ pushed_global_calls when ps)))) as Hflush.
  { intros when Hp.
    destruct (run_global_calls when ps {| req := r; self := init |} (or_introl Hp))
      as [E H].
    rewrite getGlobalCallsWhen_own by assumption. now rewrite E. }
  split; [|split].
  - rewrite Hflush by reflexivity.
    replace (or_empty (_globalCalls init !! "user"))
      with [ {| pattern := "apos.enableAreas()"; arguments := [] |} ] by reflexivity.
    cbn [List.app map].
    destruct (Hc (line_of {| pattern := "apos.enableAreas()"; arguments := [] |})
                (map line_of (pushed_global_calls "user" ps))) as [rest ->].
    exists rest. reflexivity.
  - rewrite Hflush by reflexivity.
    replace (or_empty (_globalCalls init !! "always"))
      with [ {| pattern := "apos.enablePlayers()"; arguments := [] |} ] by reflexivity.
    cbn [List.app map].
    destruct (Hc (line_of {| pattern := "apos.enablePlayers()"; arguments := [] |})
                (map line_of (pushed_global_calls "always" ps))) as [rest ->].
    exists rest. reflexivity.
  - intros when H1 H2 Hp Hn. rewrite Hflush, Hn by assumption.
    assert (_globalCalls init !! when = None) as ->; [|reflexivity].
    change init
      with {| _globalCalls :=
                <[ "always" := [ {| pattern := "apos.enablePlayers()";
                                    arguments := [] |} ] ]>
                  (<[ "user" := [ {| pattern := "apos.enableAreas()";
                                     arguments := [] |} ] ]> ∅);
              _globalData := [] |}.
    cbn [_globalCalls].
    rewrite lookup_insert_ne by congruence.
    rewrite lookup_insert_ne by congruence.
    apply lookup_empty.
Qed.

Lemma built_in_calls_come_first_witness :
  getGlobalCallsWhen
    (self (run [PushGlobalCallWhen "user" "apos.edit()" []; PushData VNull]
               {| req := {| _aposCalls := None; _aposData := None |}; self := init |}))
    "guest"
  = Returns EmptyString.
Proof.
  apply (proj2 (proj2 (built_in_calls_come_first
                         [PushGlobalCallWhen "user" "apos.edit()" []; PushData VNull]
                         {| _aposCalls := None; _aposData := None |})));
    [discriminate | discriminate | reflexivity | reflexivity].
Defined.

End RegistryProperties.

(* ===================================================================== *)
(** * Further properties of the environment cache and of rendering        *)
(* ===================================================================== *)

Module CacheProperties.
Import JS Push Templates Spec Runs StringFacts TemplateTheorems.

(** X8.  The cache only grows.  A call of [getNunjucksEnv] keeps every
    environment where it was and every cache entry as it was; it creates
    one environment when the key was not cached and none when it was. *)
Theorem getNunjucksEnv_only_adds :
  forall (views : string) (pp : option (list string)) (dirs : dirs_arg) (st : store),
    heap st `prefix_of` heap (snd (getNunjucksEnv views pp dirs st))
    /\ nunjucksEnvs st ⊆ nunjucksEnvs (snd (getNunjucksEnv views pp dirs st))
    /\ List.length (heap (snd (getNunjucksEnv views pp dirs st)))
       = (List.length (heap st)
          + match nunjucksEnvs st !! cache_key views pp dirs with
            | Some _ => 0
            | None => 1
            end)%nat.
Proof.
  intros views pp dirs st. rewrite getNunjucksEnv_by_key.
  destruct (nunjucksEnvs st !! cache_key views pp dirs) eqn:E; cbn [snd heap nunjucksEnvs].
  - repeat split; [reflexivity | reflexivity | lia].
  - repeat split.
    + now apply prefix_app_r.
    + now apply insert_subseteq.
    + rewrite length_app. reflexivity.
Qed.

Lemma cache_sound_getNunjucksEnv (views : string) (pp : option (list string))
    (dirs : dirs_arg) (st : store) :
  cache_sound views st -> cache_sound views (snd (getNunjucksEnv views pp dirs st)).
Proof.
  intros H. rewrite getNunjucksEnv_by_key.
  destruct (nunjucksEnvs st !! cache_key views pp dirs) eqn:E; cbn [snd]; [exact H|].
  intros k e. cbn [heap nunjucksEnvs].
  destruct (decide (cache_key views pp dirs = k)) as [<-|Hk].
  - rewrite lookup_insert_eq. intros [= <-].
    exists (fresh_environment (search_path views pp dirs)).
    split; [now apply list_lookup_middle|].
    split; [reflexivity|]. split; [|reflexivity].
    cbn [fresh_environment searchPaths]. unfold search_path.
    now rewrite app_assoc, last_snoc.
  - rewrite lookup_insert_ne by assumption. intros Hl.
    destruct (H k e Hl) as (env & H1 & H2).
    exists env. split; [now apply lookup_app_l_Some | exact H2].
Qed.

Lemma cache_sound_newNunjucksEnv (views : string) (dirs : list string) (st : store) :
  cache_sound views st -> cache_sound views (snd (newNunjucksEnv dirs st)).
Proof.
  intros H k e Hl. cbn in Hl.
  destruct (H k e Hl) as (env & H1 & H2).
  exists env. split; [now apply lookup_app_l_Some | exact H2].
Qed.

Lemma store_ok_newNunjucksEnv (dirs : list string) (st : store) :
  store_ok st -> store_ok (snd (newNunjucksEnv dirs st)).
Proof.
  intros [Hb Hi]. split; cbn [newNunjucksEnv snd heap nunjucksEnvs].
  - intros k e Hl. rewrite length_app. apply Hb in Hl. lia.
  - exact Hi.
Qed.

Lemma partial_unfold (views : string) (pp : option (list string)) (V : Type)
    (self_partial : V) (locals : gmap string (slot V))
    (nunjucks : Environment -> string -> gmap string (slot V) -> store
                -> outcome string * store)
    (name : string) (data : option (gmap string (slot V))) (dirs : dirs_arg) (st : store) :
  partial views pp V self_partial locals nunjucks name data dirs st
  = match heap (snd (getNunjucksEnv views pp dirs st))
            !! fst (getNunjucksEnv views pp dirs st) with
    | Some env =>
        (fst (nunjucks env (name ++ ".html") (augmented self_partial locals data)
                (snd (getNunjucksEnv views pp dirs st))),
         augmented self_partial locals data,
         snd (nunjucks env (name ++ ".html") (augmented self_partial locals data)
                (snd (getNunjucksEnv views pp dirs st))))
    | None =>
        (Throws "TypeError", augmented self_partial locals data,
         snd (getNunjucksEnv views pp dirs st))
    end.
Proof.
  unfold partial, augmented.
  destruct (getNunjucksEnv views pp dirs st) as [e st']. cbn [fst snd].
  destruct (heap st' !! e) as [env|]; [|reflexivity].
  now destruct (nunjucks env _ _ st').
Qed.

Lemma render_unfold (views : string) (pp : option (list string)) (V : Type)
    (self_partial : V) (locals : gmap string (slot V))
    (nunjucks : Environment -> string -> gmap string (slot V) -> store
                -> outcome string * store)
    (res : list string) (name : string) (info : option (gmap string (slot V)))
    (st : store) :
  Facade.render views pp V self_partial locals nunjucks res name info st
  = (sent res (fst (fst (partial views pp V self_partial locals nunjucks
                           name info DirsUndefined st))),
     snd (fst (partial views pp V self_partial locals nunjucks
                 name info DirsUndefined st)),
     snd (partial views pp V self_partial locals nunjucks name info DirsUndefined st)).
Proof.
  unfold Facade.render.
  now destruct (partial _ _ _ _ _ _ _ _ _ _) as [[[body| |] data] st'].
Qed.

Lemma partial_store_ok (views : string) (pp : option (list string)) (V : Type)
    (self_partial : V) (locals : gmap string (slot V))
    (nunjucks : Environment -> string -> gmap string (slot V) -> store
                -> outcome string * store)
    (name : string) (data : option (gmap string (slot V))) (dirs : dirs_arg) (st : store) :
  keeps_well_formed views nunjucks ->
  store_ok st -> cache_sound views st ->
  store_ok (snd (partial views pp V self_partial locals nunjucks name data dirs st))
  /\ cache_sound views (snd (partial views pp V self_partial locals nunjucks
                               name data dirs st)).
Proof.
  intros Hn Hok Hs. rewrite partial_unfold.
  pose proof (getNunjucksEnv_store_ok views pp dirs st Hok) as Hok'.
  pose proof (cache_sound_getNunjucksEnv views pp dirs st Hs) as Hs'.
  destruct (heap _ !! _) as [env|]; cbn [snd]; [|now split].
  now apply Hn.
Qed.

(** X9.  The store stays well formed.  In the empty store, and after
    every call of [getNunjucksEnv] or [newNunjucksEnv] on a well-formed
    store, every cached reference points at an environment, no
    environment is cached under two keys, and each cached environment has
    a search path that joins to its key and ends with the views
    directory, and the ten filters.  [partial] and [render] hand such a
    store to the template they render, and leave one when the rendering
    itself keeps stores well formed. *)
Theorem the_store_stays_well_formed :
  forall (views : string),
    (store_ok empty_store /\ cache_sound views empty_store)
    /\ forall (pp : option (list string)) (V : Type) (self_partial : V)
              (locals : gmap string (slot V))
              (nunjucks : Environment -> string -> gmap string (slot V) -> store
                          -> outcome string * store)
              (st : store),
         store_ok st -> cache_sound views st ->
         (forall dirs,
             store_ok (snd (getNunjucksEnv views pp dirs st)) /\
             cache_sound views (snd (getNunjucksEnv views pp dirs st)))
         /\ (forall dirs,
                store_ok (snd (newNunjucksEnv dirs st)) /\
                cache_sound views (snd (newNunjucksEnv dirs st)))
         /\ (keeps_well_formed views nunjucks ->
             forall name data dirs,
                store_ok (snd (partial views pp V self_partial locals nunjucks
                                 name data dirs st)) /\
                cache_sound views (snd (partial views pp V self_partial locals
                                          nunjucks name data dirs st)))
         /\ (keeps_well_formed views nunjucks ->
             forall res name info,
                store_ok (snd (Facade.render views pp V self_partial locals
                                 nunjucks res name info st)) /\
                cache_sound views (snd (Facade.render views pp V self_partial locals
                                          nunjucks res name info st))).
Proof.
  intros views. split.
  - split; [apply empty_store_ok|]. intros k e. cbn. rewrite lookup_empty. discriminate.
  - intros pp V self_partial locals nunjucks st Hok Hs.
    split; [|split; [|split]].
    + intros dirs. split;
        [now apply getNunjucksEnv_store_ok | now apply cache_sound_getNunjucksEnv].
    + intros dirs. split;
        [now apply store_ok_newNunjucksEnv | now apply cache_sound_newNunjucksEnv].
    + intros Hn name data dirs. now apply partial_store_ok.
    + intros Hn res name info. rewrite render_unfold. cbn [snd].
      now apply partial_store_ok.
Qed.

Lemma the_store_stays_well_formed_witness :
  (store_ok (snd (getNunjucksEnv "/views" None (DirsString "/site") empty_store))
   /\ cache_sound "/views"
        (snd (getNunjucksEnv "/views" None (DirsString "/site") empty_store)))
  /\ (store_ok (snd (Facade.render "/views" None string "partial()" ∅
                       (fun _ name _ st => (Returns name, st))
                       [] "page" None empty_store))
      /\ cache_sound "/views"
           (snd (Facade.render "/views" None string "partial()" ∅
                   (fun _ name _ st => (Returns name, st))
                   [] "page" None empty_store))).
Proof.
  destruct (the_store_stays_well_formed "/views") as [[H1 H2] H].
  destruct (H None string "partial()" ∅ (fun _ name _ st => (Returns name, st))
              empty_store H1 H2) as (Hg & _ & _ & Hr).
  split; [apply Hg|]. apply Hr.
  intros env name data st Hok Hs. cbn [snd]. now split.
Defined.

(** X10.  On a store whose cache is sound, the reference [getNunjucksEnv]
    returns points at an environment whose search path joins to the
    cache key of the argument, ends with the views directory of the
    module, and which has the ten filters [date], [query], [json], [qs],
    [build], [stripTags], [nlbr], [css], [truncate] and [jsonAttribute]. *)
Theorem getNunjucksEnv_returns_a_full_environment :
  forall (views : string) (pp : option (list string)) (dirs : dirs_arg) (st : store),
    cache_sound views st ->
    exists env,
      heap (snd (getNunjucksEnv views pp dirs st)) !! fst (getNunjucksEnv views pp dirs st)
      = Some env /\
      String.concat ":" (searchPaths env) = cache_key views pp dirs /\
      last (searchPaths env) = Some views /\
      rev (filters env)
      = [ "date"; "query"; "json"; "qs"; "build"; "stripTags"; "nlbr"; "css";
          "truncate"; "jsonAttribute" ].
Proof.
  intros views pp dirs st H.
  destruct (cache_sound_getNunjucksEnv views pp dirs st H _ _
              (getNunjucksEnv_cached views pp dirs st)) as (env & H1 & H2 & H3 & H4).
  exists env. rewrite H4. auto.
Qed.

Lemma getNunjucksEnv_returns_a_full_environment_witness :
  exists env,
    heap (snd (getNunjucksEnv "/views" (Some ["/shared"]) (DirsString "/site") empty_store))
      !! fst (getNunjucksEnv "/views" (Some ["/shared"]) (DirsString "/site") empty_store)
    = Some env /\
    String.concat ":" (searchPaths env) = "/site:/shared:/views" /\
    last (searchPaths env) = Some "/views".
Proof.
  destruct (getNunjucksEnv_returns_a_full_environment
              "/views" (Some ["/shared"]) (DirsString "/site") empty_store)
    as (env & H1 & H2 & H3 & _).
  - intros k e. cbn. rewrite lookup_empty. discriminate.
  - exists env. auto.
Defined.

(** X11.  [newNunjucksEnv] always creates.  The environment searches
    exactly the directories given, with neither the partial paths nor the
    views directory added; the cache is not touched; on a well-formed
    store the reference is one no cache key leads to; and a second call
    with the same directories returns another reference. *)
Theorem newNunjucksEnv_always_creates :
  forall (dirs : list string) (st : store),
    searchPaths <$> heap (snd (newNunjucksEnv dirs st)) !! fst (newNunjucksEnv dirs st)
    = Some dirs
    /\ nunjucksEnvs (snd (newNunjucksEnv dirs st)) = nunjucksEnvs st
    /\ heap st `prefix_of` heap (snd (newNunjucksEnv dirs st))
    /\ fst (newNunjucksEnv dirs (snd (newNunjucksEnv dirs st))) <> fst (newNunjucksEnv dirs st)
    /\ (store_ok st ->
        forall k, nunjucksEnvs (snd (newNunjucksEnv dirs st)) !! k
                  <> Some (fst (newNunjucksEnv dirs st))).
Proof.
  intros dirs st. cbn [newNunjucksEnv fst snd heap nunjucksEnvs].
  split; [now rewrite list_lookup_middle|].
  split; [reflexivity|].
  split; [now apply prefix_app_r|].
  split; [rewrite length_app; simpl; lia|].
  intros [Hb _] k Hk. apply Hb in Hk. lia.
Qed.

Lemma newNunjucksEnv_always_creates_witness :
  nunjucksEnvs (snd (newNunjucksEnv ["/site"] empty_store)) !! "/site"
  <> Some (fst (newNunjucksEnv ["/site"] empty_store)).
Proof.
  apply (proj2 (proj2 (proj2 (proj2 (newNunjucksEnv_always_creates ["/site"] empty_store))))).
  apply empty_store_ok.
Defined.

(** X12.  [partial] renders.  On a store whose cache is sound, [partial]
    asks nunjucks for the template [name + '.html'] with the augmented
    data, in the environment [getNunjucksEnv] returns for the
    directories, whose search path ends with the views directory, and in
    the store [getNunjucksEnv] leaves.  What that rendering returns,
    [partial] returns; what it throws, a missing template for one,
    [partial] throws; and the store it leaves is the store [partial]
    leaves. *)
Theorem partial_renders_the_html_template :
  forall (views : string) (pp : option (list string)) (V : Type) (self_partial : V)
         (locals : gmap string (slot V))
         (nunjucks : Environment -> string -> gmap string (slot V) -> store
                     -> outcome string * store)
         (name : string) (data : option (gmap string (slot V))) (dirs : dirs_arg)
         (st : store),
    cache_sound views st ->
    exists env,
      heap (snd (getNunjucksEnv views pp dirs st)) !! fst (getNunjucksEnv views pp dirs st)
      = Some env /\
      last (searchPaths env) = Some views /\
      partial views pp V self_partial locals nunjucks name data dirs st
      = (fst (nunjucks env (name ++ ".html") (augmented self_partial locals data)
                (snd (getNunjucksEnv views pp dirs st))),
         augmented self_partial locals data,
         snd (nunjucks env (name ++ ".html") (augmented self_partial locals data)
                (snd (getNunjucksEnv views pp dirs st)))).
Proof.
  intros views pp V self_partial locals nunjucks name data dirs st H.
  destruct (cache_sound_getNunjucksEnv views pp dirs st H _ _
              (getNunjucksEnv_cached views pp dirs st)) as (env & H1 & _ & H3 & _).
  exists env. rewrite partial_unfold, H1. auto.
Qed.

Lemma partial_renders_the_html_template_witness :
  fst (fst (partial "/views" None string "partial()" ∅
              (fun env name _ st =>
                 (Returns (String.concat ":" (searchPaths env) ++ "/" ++ name), st))
              "page" None DirsUndefined empty_store))
  = Returns "/views/page.html"
  /\ fst (fst (partial "/views" None string "partial()" ∅
                 (fun _ name _ st => (Throws ("template not found: " ++ name), st))
                 "page" None DirsUndefined empty_store))
     = Throws "template not found: page.html".
Proof.
  split.
  - destruct (partial_renders_the_html_template "/views" None string "partial()" ∅
                (fun env name _ st =>
                   (Returns (String.concat ":" (searchPaths env) ++ "/" ++ name), st))
                "page" None DirsUndefined empty_store)
      as (env & H1 & _ & H3).
    + intros k e. cbn. rewrite lookup_empty. discriminate.
    + rewrite H3. cbn [fst]. cbn in H1. injection H1 as <-. reflexivity.
  - destruct (partial_renders_the_html_template "/views" None string "partial()" ∅
                (fun _ name _ st => (Throws ("template not found: " ++ name), st))
                "page" None DirsUndefined empty_store)
      as (env & _ & _ & H3).
    + intros k e. cbn. rewrite lookup_empty. discriminate.
    + rewrite H3. reflexivity.
Defined.



Lemma is_undefined_lookup (V : Type) (o1 o2 : gmap string (slot V)) (k : string) :
  o1 !! k = o2 !! k -> is_undefined V o1 k = is_undefined V o2 k.
Proof. unfold is_undefined. now intros ->. Qed.

(** X14.  Handing the data object [partial] produced to [partial] again,
    as a template does when it renders another partial with the data it
    received, changes nothing more in it. *)
Theorem partial_augments_once :
  forall (views : string) (pp : option (list string)) (V : Type) (self_partial : V)
         (locals : gmap string (slot V))
         (nunjucks : Environment -> string -> gmap string (slot V) -> store
                     -> outcome string * store)
         (name1 name2 : string) (data : option (gmap string (slot V)))
         (dirs1 dirs2 : dirs_arg) (st1 st2 : store),
    let after :=
      snd (fst (partial views pp V self_partial locals nunjucks
                  name1 data dirs1 st1)) in
    snd (fst (partial views pp V self_partial locals nunjucks
                name2 (Some after) dirs2 st2))
    = after.
Proof.
  intros views pp V self_partial locals nunjucks name1 name2 data
         dirs1 dirs2 st1 st2 after.
  unfold after. rewrite !partial_data.
  set (a := augmented self_partial locals data).
  apply map_eq. intros k.
  rewrite lookup_augmented. cbn zeta.
  destruct (String.eqb_spec k "partial") as [->|Hk].
  - destruct (is_undefined V a "partial") eqn:U; [|reflexivity].
    exfalso. revert U. unfold is_undefined, a.
    rewrite lookup_augmented. cbn zeta. cbn [String.eqb Ascii.eqb Bool.eqb].
    unfold is_undefined.
    destruct ((match data with Some d => d | None => ∅ end) !! "partial")
      as [[|v]|]; cbn; discriminate.
  - destruct (is_undefined V a k) eqn:U; [|reflexivity].
    destruct (locals !! k) as [x|] eqn:L; [|reflexivity].
    unfold a in *. rewrite lookup_augmented in *. cbn zeta in *.
    destruct (String.eqb_spec k "partial") as [|_]; [contradiction|].
    destruct (is_undefined V (match data with Some d => d | None => ∅ end) k) eqn:U0.
    + now rewrite L.
    + exfalso.
      rewrite (is_undefined_lookup V _ (match data with Some d => d | None => ∅ end) k)
        in U; [congruence|].
      rewrite lookup_augmented. cbn zeta.
      destruct (String.eqb_spec k "partial") as [|_]; [contradiction|].
      now rewrite U0.
Qed.

(** X15.  All renders share one environment.  [render] passes no
    directories, so whatever the templates and the data, and whether the
    first rendering returned or threw, a [render] after a [render] finds
    the environment of the first one cached and creates none, as long as
    rendering a template drops nothing from the cache.  [render] sends
    one body, the text [partial] returns, after the bodies sent before,
    and sends nothing when [partial] throws. *)
Theorem renders_share_one_environment :
  forall (views : string) (pp : option (list string)) (V : Type) (self_partial : V)
         (locals : gmap string (slot V))
         (nunjucks : Environment -> string -> gmap string (slot V) -> store
                     -> outcome string * store)
         (res1 : list string) (name1 : string)
         (info1 : option (gmap string (slot V))) (st : store),
    let st1 := snd (Facade.render views pp V self_partial locals nunjucks
                      res1 name1 info1 st) in
    (keeps_the_cache nunjucks ->
     getNunjucksEnv views pp DirsUndefined st1
     = (fst (getNunjucksEnv views pp DirsUndefined st), st1))
    /\ (forall body,
           fst (fst (partial views pp V self_partial locals nunjucks
                       name1 info1 DirsUndefined st)) = Returns body ->
           fst (fst (Facade.render views pp V self_partial locals nunjucks
                       res1 name1 info1 st)) = Returns (res1 ++ [body])%list)
    /\ (forall error,
           fst (fst (partial views pp V self_partial locals nunjucks
                       name1 info1 DirsUndefined st)) = Throws error ->
           fst (fst (Facade.render views pp V self_partial locals nunjucks
                       res1 name1 info1 st)) = Throws error).
Proof.
  intros views pp V self_partial locals nunjucks res1 name1 info1 st st1.
  split; [|split].
  - intros Hn. unfold st1. rewrite render_unfold. cbn [snd].
    rewrite (getNunjucksEnv_by_key views pp DirsUndefined (snd _)).
    assert (nunjucksEnvs (snd (partial views pp V self_partial locals nunjucks
                                 name1 info1 DirsUndefined st))
              !! cache_key views pp DirsUndefined
            = Some (fst (getNunjucksEnv views pp DirsUndefined st))) as ->;
      [|reflexivity].
    rewrite partial_unfold.
    pose proof (getNunjucksEnv_cached views pp DirsUndefined st) as Hc.
    destruct (heap _ !! _) as [env|]; cbn [snd]; [|exact Hc].
    eapply lookup_weaken; [exact Hc | apply Hn].
  - intros body H. rewrite render_unfold. cbn [fst]. now rewrite H.
  - intros error H. rewrite render_unfold. cbn [fst]. now rewrite H.
Qed.

Lemma renders_share_one_environment_witness :
  fst (getNunjucksEnv "/views" None DirsUndefined
         (snd (Facade.render "/views" None string "partial()" ∅
                 (fun _ name _ st => (Returns name, st))
                 ["sent"] "page" None empty_store)))
  = fst (getNunjucksEnv "/views" None DirsUndefined empty_store)
  /\ fst (fst (Facade.render "/views" None string "partial()" ∅
                 (fun _ name _ st => (Returns name, st))
                 ["sent"] "page" None empty_store))
     = Returns ["sent"; "page.html"].
Proof.
  destruct (renders_share_one_environment "/views" None string "partial()" ∅
              (fun _ name _ st => (Returns name, st)) ["sent"] "page" None empty_store)
    as (H1 & H2 & _).
  split.
  - rewrite H1; [reflexivity|]. intros env name data st. reflexivity.
  - apply (H2 "page.html"). reflexivity.
Defined.

End CacheProperties.

(* ===================================================================== *)
(** * Properties of the [stripTags] filter                                *)
(* ===================================================================== *)

Module FilterProperties.
Import JS Filters StringFacts.

Lemma close_after_gt (keep t : string) :
  (fix close (t : string) : string :=
     match t with
     | EmptyString => keep
     | String e t' => if Ascii.eqb e ">" then stripTags t' else close t'
     end) t
  = match after_gt t with
    | Some rest => stripTags rest
    | None => keep
    end.
Proof.
  induction t as [|e t IH]; [reflexivity|].
  cbn [after_gt]. destruct (Ascii.eqb e ">"); [reflexivity | exact IH].
Qed.

(** One step of the scan: a match at the head is dropped, any other
    character is copied. *)
Lemma stripTags_step (c : ascii) (r : string) :
  stripTags (String c r)
  = match tag_at_head (String c r) with
    | Some rest => stripTags rest
    | None => String c (stripTags r)
    end.
Proof.
  destruct r as [|d r'].
  - cbn. now destruct (Ascii.eqb c "<").
  - transitivity
      (if Ascii.eqb c "<"
       then if Ascii.eqb d ">"
            then String c (stripTags (String d r'))
            else match after_gt r' with
                 | Some rest => stripTags rest
                 | None => String c (stripTags (String d r'))
                 end
       else String c (stripTags (String d r'))).
    + rewrite <- close_after_gt. reflexivity.
    + unfold tag_at_head.
      destruct (Ascii.eqb c "<"), (Ascii.eqb d ">"); reflexivity.
Qed.

Lemma after_gt_shorter (t rest : string) :
  after_gt t = Some rest -> (String.length rest < String.length t)%nat.
Proof.
  revert rest. induction t as [|e t IH]; intros rest; cbn [after_gt]; [discriminate|].
  destruct (Ascii.eqb e ">").
  - intros [= ->]. simpl. lia.
  - intros H%IH. simpl. lia.
Qed.

Lemma tag_at_head_shorter (s rest : string) :
  tag_at_head s = Some rest -> (String.length rest + 3 <= String.length s)%nat.
Proof.
  destruct s as [|c [|d r']]; cbn [tag_at_head]; try discriminate.
  destruct (Ascii.eqb c "<" && negb (Ascii.eqb d ">")); [|discriminate].
  intros H%after_gt_shorter. simpl. lia.
Qed.

Lemma after_gt_none (t : string) : occurs ">" t = false -> after_gt t = None.
Proof.
  induction t as [|e t IH]; [reflexivity|]. cbn [occurs after_gt].
  destruct (Ascii.eqb e ">"); [discriminate | exact IH].
Qed.

Lemma after_gt_append (body post : string) :
  occurs ">" body = false -> after_gt (body ++ String ">" post) = Some post.
Proof.
  induction body as [|e body IH]; [reflexivity|]. cbn [occurs].
  change (String e body ++ String ">" post) with (String e (body ++ String ">" post)).
  cbn [after_gt]. destruct (Ascii.eqb e ">"); [discriminate | exact IH].
Qed.

Lemma tag_at_head_none (s : string) :
  occurs ">" s = false \/ occurs "<" s = false -> tag_at_head s = None.
Proof.
  destruct s as [|c [|d r']]; try reflexivity. cbn [tag_at_head occurs].
  intros [H|H].
  - apply orb_false_elim in H as [_ H]. apply orb_false_elim in H as [Hd H].
    rewrite Hd, (after_gt_none r' H). now destruct (Ascii.eqb c "<").
  - apply orb_false_elim in H as [Hc _]. now rewrite Hc.
Qed.

Lemma stripTags_without (x : ascii) (s : string) :
  x = ">"%char \/ x = "<"%char -> occurs x s = false -> stripTags s = s.
Proof.
  intros Hx. induction s as [|c r IH]; [reflexivity|].
  intros H. rewrite stripTags_step, tag_at_head_none.
  - cbn [occurs] in H. apply orb_false_elim in H as [_ H]. now rewrite IH.
  - destruct Hx as [-> | ->]; auto.
Qed.

Lemma stripTags_tag_free (s : string) : has_tag s = false -> stripTags s = s.
Proof.
  induction s as [|c r IH]; [reflexivity|].
  cbn [has_tag]. rewrite stripTags_step.
  destruct (tag_at_head (String c r)); [discriminate|].
  intros H. now rewrite IH.
Qed.

Lemma tag_at_head_other (c : ascii) (r : string) :
  Ascii.eqb c "<" = false -> tag_at_head (String c r) = None.
Proof. intros H. destruct r; cbn [tag_at_head]; [reflexivity | now rewrite H]. Qed.

Lemma after_gt_none_inv (t : string) : after_gt t = None -> occurs ">" t = false.
Proof.
  induction t as [|e t IH]; [reflexivity|]. cbn [after_gt occurs].
  destruct (Ascii.eqb e ">"); [discriminate | exact IH].
Qed.

(** A character kept because no match starts at it starts no match in
    the output either. *)
Lemma kept_head_starts_no_tag (c : ascii) (r : string) :
  tag_at_head (String c r) = None -> tag_at_head (String c (stripTags r)) = None.
Proof.
  destruct (Ascii.eqb c "<") eqn:Hc; [|intros _; now apply tag_at_head_other].
  destruct r as [|d r']; [reflexivity|].
  cbn [tag_at_head]. rewrite Hc. cbn [andb].
  destruct (Ascii.eqb d ">") eqn:Hd; cbn [negb].
  - intros _. rewrite stripTags_step, (tag_at_head_other d r').
    + now rewrite Hd.
    + apply Ascii.eqb_eq in Hd as ->. reflexivity.
  - intros Hnone. apply after_gt_none_inv in Hnone.
    rewrite (stripTags_without ">" (String d r')).
    + rewrite Hd. cbn [negb]. now apply after_gt_none.
    + now left.
    + cbn [occurs]. now rewrite Hd.
Qed.

Lemma stripTags_no_tag_bounded (n : nat) :
  forall s, (String.length s <= n)%nat -> has_tag (stripTags s) = false.
Proof.
  induction n as [|n IH]; intros s Hn.
  - destruct s; [reflexivity | simpl in Hn; lia].
  - destruct s as [|c r]; [reflexivity|].
    rewrite stripTags_step.
    destruct (tag_at_head (String c r)) as [rest|] eqn:E.
    + apply IH. apply tag_at_head_shorter in E. lia.
    + cbn [has_tag]. rewrite (kept_head_starts_no_tag c r E).
      apply IH. simpl in Hn. lia.
Qed.

Lemma stripTags_length_bounded (n : nat) :
  forall s, (String.length s <= n)%nat ->
            (String.length (stripTags s) <= String.length s)%nat
            /\ (has_tag s = true ->
                (String.length (stripTags s) + 3 <= String.length s)%nat).
Proof.
  induction n as [|n IH]; intros s Hn.
  - destruct s; [split; [reflexivity | discriminate] | simpl in Hn; lia].
  - destruct s as [|c r]; [split; [reflexivity | discriminate]|].
    rewrite stripTags_step. cbn [has_tag].
    destruct (tag_at_head (String c r)) as [rest|] eqn:E.
    + apply tag_at_head_shorter in E.
      destruct (IH rest) as [H _]; [lia|]. split; [lia | intros _; lia].
    + destruct (IH r) as [H1 H2]; [simpl in Hn; lia|].
      simpl. split; [lia | intros H%H2; lia].
Qed.

(** X16.  What [stripTags] returns holds no tag: the pattern
    [<[^>]+>] matches nowhere in it, and filtering it again returns it
    unchanged. *)
Theorem stripTags_leaves_no_tag :
  forall data : string,
    has_tag (stripTags data) = false
    /\ stripTags (stripTags data) = stripTags data.
Proof.
  intros data.
  assert (has_tag (stripTags data) = false) as H
    by (apply (stripTags_no_tag_bounded (String.length data)); lia).
  split; [exact H | now apply stripTags_tag_free].
Qed.

(** X17.  [stripTags] returns a text unchanged when the pattern matches
    nowhere in it; this is so when it has no [<], and also when it has no
    [>]: a tag that is opened and never closed stays in the output. *)
Theorem stripTags_keeps_what_is_not_a_tag :
  forall data : string,
    (has_tag data = false -> stripTags data = data)
    /\ (occurs "<" data = false -> stripTags data = data)
    /\ (occurs ">" data = false -> stripTags data = data).
Proof.
  intros data. split; [apply stripTags_tag_free|].
  split; apply stripTags_without; auto.
Qed.

Lemma stripTags_keeps_what_is_not_a_tag_witness :
  stripTags "a <script src=x" = "a <script src=x"
  /\ stripTags "1 > 0" = "1 > 0"
  /\ stripTags "a <> b" = "a <> b".
Proof.
  destruct (stripTags_keeps_what_is_not_a_tag "a <script src=x") as (_ & _ & H1).
  destruct (stripTags_keeps_what_is_not_a_tag "1 > 0") as (_ & H2 & _).
  destruct (stripTags_keeps_what_is_not_a_tag "a <> b") as (H3 & _ & _).
  split; [apply H1; reflexivity|]. split; [apply H2; reflexivity | apply H3; reflexivity].
Defined.

Lemma stripTags_plain_prefix (pre rest : string) :
  occurs "<" pre = false -> stripTags (pre ++ rest) = pre ++ stripTags rest.
Proof.
  induction pre as [|c pre IH]; [reflexivity|]. cbn [occurs].
  intros H. apply orb_false_elim in H as [Hc H].
  change (String c pre ++ rest) with (String c (pre ++ rest)).
  rewrite stripTags_step, tag_at_head_other by assumption.
  now rewrite IH.
Qed.

(** X18.  A tag is removed whole.  After a text without [<], a [<], a
    non-empty body without [>] and a [>] are dropped together, whatever
    the body holds, and the filter goes on with what follows.  An empty
    pair [<>] is no tag: it is copied. *)
Theorem stripTags_removes_a_tag :
  forall pre body post : string,
    occurs "<" pre = false ->
    (body <> EmptyString ->
     occurs ">" body = false ->
     stripTags (pre ++ String "<" (body ++ String ">" post)) = pre ++ stripTags post)
    /\ stripTags (pre ++ String "<" (String ">" post))
       = pre ++ String "<" (String ">" (stripTags post)).
Proof.
  intros pre body post Hpre. split.
  - intros Hne Hbody. rewrite stripTags_plain_prefix by assumption. f_equal.
    destruct body as [|d body]; [congruence|].
    cbn [occurs] in Hbody. apply orb_false_elim in Hbody as [Hd Hbody].
    change (String d body ++ String ">" post) with (String d (body ++ String ">" post)).
    rewrite stripTags_step. cbn [tag_at_head]. rewrite Hd. cbn [Ascii.eqb andb negb].
    replace (Ascii.eqb "<" "<") with true by reflexivity. cbn [andb].
    now rewrite after_gt_append.
  - rewrite stripTags_plain_prefix by assumption. reflexivity.
Qed.

Lemma stripTags_removes_a_tag_witness :
  stripTags ("Hello " ++ String "<" ("b class=x" ++ String ">" "world"))
  = "Hello " ++ stripTags "world".
Proof.
  apply (proj1 (stripTags_removes_a_tag "Hello " "b class=x" "world" eq_refl));
    [discriminate | reflexivity].
Defined.

(** X19.  [stripTags] only removes: its result is never longer than the
    text it is given, and it is shorter by at least three characters when
    the text holds a tag. *)
Theorem stripTags_only_removes :
  forall data : string,
    (String.length (stripTags data) <= String.length data)%nat
    /\ (has_tag data = true ->
        (String.length (stripTags data) + 3 <= String.length data)%nat).
Proof.
  intros data. apply (stripTags_length_bounded (String.length data)). lia.
Qed.

Lemma stripTags_only_removes_witness :
  (String.length (stripTags "x<i>y") + 3 <= String.length "x<i>y")%nat.
Proof.
  apply (proj2 (stripTags_only_removes "x<i>y")). reflexivity.
Defined.

End FilterProperties.
